(** * seq_primer_clip: primer pattern generation, matching and read clipping

    A shallow embedding of [tools/seq_primer_clip/seq_primer_clip.py].
    Sequences are Python [str] values over ASCII, modelled as [list ascii].
    The regular expressions the script builds are strings; here each
    alternative is kept as the list of regex atoms it is made of ([tok]),
    with [render] giving back the string the script concatenates. *)

From Stdlib Require Import Ascii String List Arith ZArith Lia Bool Sorted Permutation.
Import ListNotations.

Definition str := list ascii.

(** String literal helper for concrete inputs. *)
Definition S_ (x : string) : str := list_ascii_of_string x.
Arguments S_ x%_string.

Definition newline : ascii := ascii_of_nat 10.

(** Python's [str.upper] on ASCII: only [a]..[z] change. *)
Definition upper_char (c : ascii) : ascii :=
  let n := nat_of_ascii c in
  if (97 <=? n) && (n <=? 122) then ascii_of_nat (n - 32) else c.

Definition upper (x : str) : str := map upper_char x.

(** Python slice [x[i:j]] for non-negative [i], [j]. *)
Definition py_slice (i j : nat) (x : str) : str := firstn (j - i) (skipn i x).

(** ** Python exceptions and a small error monad *)

Inductive py_error :=
| KeyError (c : ascii)
| NotImplementedError
| SysExit.

Inductive res (A : Type) :=
| Ok (a : A)
| Err (e : py_error).
Arguments Ok {A} a.
Arguments Err {A} e.

Definition bind {A B} (m : res A) (k : A -> res B) : res B :=
  match m with Ok a => k a | Err e => Err e end.

Notation "x <- m ;; k" := (bind m (fun x => k))
  (at level 61, m at next level, right associativity).

Fixpoint mapM {A B} (f : A -> res B) (l : list A) : res (list B) :=
  match l with
  | [] => Ok []
  | x :: r => y <- f x ;; ys <- mapM f r ;; Ok (y :: ys)
  end.

(** ** Regex atoms *)

(** The atoms occurring in the script's patterns: [^], [$], a literal
    character, a character class [[...]] and the dot. *)
Inductive tok :=
| TBol
| TEol
| TLit (c : ascii)
| TCls (cs : list ascii)
| TAny.

Definition pat := list tok.

Definition tok_eq_dec (a b : tok) : {a = b} + {a <> b}.
Proof. decide equality; [apply ascii_dec | apply (list_eq_dec ascii_dec)]. Defined.

Definition pat_eq_dec : forall a b : pat, {a = b} + {a <> b} :=
  list_eq_dec tok_eq_dec.

(** The regex text of an atom. *)
Definition render_tok (t : tok) : str :=
  match t with
  | TBol => S_ "^"
  | TEol => S_ "$"
  | TLit c => [c]
  | TCls cs => "["%char :: cs ++ ["]"%char]
  | TAny => S_ "."
  end.

Definition render (p : pat) : str := concat (map render_tok p).

(** [len(p)] of the pattern string, the sort key of [load_primers_as_re]. *)
Definition pat_len (p : pat) : nat := length (render p).

(** ** Ambiguity table *)

Definition ambiguous_dna_values : list (ascii * str) :=
  [("A"%char, S_ "A"); ("C"%char, S_ "C"); ("G"%char, S_ "G");
   ("T"%char, S_ "T"); ("M"%char, S_ "ACM"); ("R"%char, S_ "AGR");
   ("W"%char, S_ "ATW"); ("S"%char, S_ "CGS"); ("Y"%char, S_ "CTY");
   ("K"%char, S_ "GTK"); ("V"%char, S_ "ACGMRSV"); ("H"%char, S_ "ACTMWYH");
   ("D"%char, S_ "AGTRWKD"); ("B"%char, S_ "CGTSYKB"); ("X"%char, S_ ".");
   ("N"%char, S_ ".")].

(** [values] if [len(values) == 1], else ["[%s]" % values], read as a
    regex atom (a one-character value ["."] is the regex dot). *)
Definition re_atom (values : str) : tok :=
  match values with
  | [c] => if Ascii.eqb c "."%char then TAny else TLit c
  | _ => TCls values
  end.

Fixpoint assoc (k : ascii) (l : list (ascii * str)) : option str :=
  match l with
  | [] => None
  | (k', v) :: r => if Ascii.eqb k k' then Some v else assoc k r
  end.

(** [ambiguous_dna_re[letter]], raising [KeyError] for other letters. *)
Definition ambiguous_dna_re (letter : ascii) : res tok :=
  match assoc letter ambiguous_dna_values with
  | Some v => Ok (re_atom v)
  | None => Err (KeyError letter)
  end.

Definition make_reg_ex (seq : str) : res pat := mapM ambiguous_dna_re seq.

(** [seq[:i] + "N" + seq[i + 1 :]] *)
Definition n_at (seq : str) (i : nat) : str :=
  firstn i seq ++ "N"%char :: skipn (S i) seq.

(** [seq[:i] + "N" + seq[i + 1 : i + 1 + k] + "N" + seq[i + k + 2 :]] *)
Definition nn_at (seq : str) (i k : nat) : str :=
  firstn i seq ++ "N"%char :: firstn k (skipn (S i) seq)
    ++ "N"%char :: skipn (i + k + 2) seq.

(** [for i, letter in enumerate(seq)]: one N at each position. *)
Definition single_n (seq : str) : list str :=
  map (n_at seq) (List.seq 0 (length seq)).

(** the nested loops over [i] and [k in enumerate(seq[i + 1 :])]. *)
Definition double_n (seq : str) : list str :=
  flat_map (fun i => map (nn_at seq i) (List.seq 0 (length (skipn (S i) seq))))
    (List.seq 0 (length seq)).

(** [make_reg_ex_mm]: the generator's output, in yield order.  The
    recursion is on [mm - i] with [i >= 1]; [fuel = S mm] is always enough. *)
Fixpoint mrm (fuel : nat) (seq : str) (mm : nat) : res (list pat) :=
  if 2 <? mm then Err NotImplementedError else
  match fuel with
  | O => Err NotImplementedError
  | S fuel' =>
    let seq := upper seq in
    r0 <- make_reg_ex seq ;;
    trunc <- mapM (fun i =>
               a <- mrm fuel' (skipn i seq) (mm - i) ;;
               b <- mrm fuel' (firstn (length seq - i) seq) (mm - i) ;;
               Ok (map (cons TBol) a ++ map (cons TEol) b))
             (List.seq 1 mm) ;;
    ones <- (if 1 <=? mm then mapM make_reg_ex (single_n seq) else Ok []) ;;
    twos <- (if 2 <=? mm then mapM make_reg_ex (double_n seq) else Ok []) ;;
    Ok (r0 :: concat trunc ++ ones ++ twos)
  end.

Definition make_reg_ex_mm (seq : str) (mm : nat) : res (list pat) :=
  mrm (S mm) seq mm.

(** ** Compiling the alternation *)

(** [sorted(..., key=lambda p: -len(p))]: a stable sort, longest first. *)
Fixpoint insert_desc (p : pat) (l : list pat) : list pat :=
  match l with
  | [] => [p]
  | q :: r => if pat_len q <? pat_len p then p :: q :: r else q :: insert_desc p r
  end.

Definition sort_by_len (l : list pat) : list pat :=
  fold_left (fun acc p => insert_desc p acc) l [].

Section Load.
(** [Bio.Seq.reverse_complement], a Biopython function. *)
Variable reverse_complement : str -> str.

(** [load_primers_as_re]: the primer count and the alternatives of the
    combined regex, in alternation order.  The Python [set] is modelled by
    removing duplicates; its iteration order is unspecified in Python, and
    only the order between patterns of equal length depends on it. *)
Definition load_primers_as_re (records : list str) (mm : nat) (rc : bool)
  : res (nat * list pat) :=
  pats <- mapM (fun r => make_reg_ex_mm (if rc then reverse_complement r else r) mm)
            records ;;
  Ok (length records, sort_by_len (nodup pat_eq_dec (concat pats))).
End Load.

(** ** Python [re] search over the alternation *)

Definition tok_char_ok (t : tok) (c : ascii) : bool :=
  match t with
  | TLit d => Ascii.eqb d c
  | TCls cs => existsb (Ascii.eqb c) cs
  | TAny => negb (Ascii.eqb c newline)
  | TBol | TEol => false
  end.

(** [$] (no MULTILINE): at the end, or before a final newline. *)
Definition eol_at (x : str) (pos : nat) : bool :=
  (pos =? length x) ||
  ((S pos =? length x) &&
   match nth_error x pos with Some c => Ascii.eqb c newline | None => false end).

(** One alternative tried at [pos]; the end of the match if it succeeds. *)
Fixpoint match_at (p : pat) (x : str) (pos : nat) : option nat :=
  match p with
  | [] => Some pos
  | TBol :: r => if pos =? 0 then match_at r x pos else None
  | TEol :: r => if eol_at x pos then match_at r x pos else None
  | t :: r =>
      match nth_error x pos with
      | Some c => if tok_char_ok t c then match_at r x (S pos) else None
      | None => None
      end
  end.

(** The alternatives are tried in order; the first that matches wins. *)
Fixpoint first_alt (alts : list pat) (x : str) (pos : nat) : option nat :=
  match alts with
  | [] => None
  | a :: r =>
      match match_at a x pos with
      | Some e => Some e
      | None => first_alt r x pos
      end
  end.

Fixpoint search_from (alts : list pat) (x : str) (pos fuel : nat)
  : option (nat * nat) :=
  match fuel with
  | O => None
  | S fuel' =>
      match first_alt alts x pos with
      | Some e => Some (pos, e)
      | None => search_from alts x (S pos) fuel'
      end
  end.

(** [primer.search(x)]: start positions [0 .. len(x)], leftmost first;
    the match span [(start, end)]. *)
Definition search (alts : list pat) (x : str) : option (nat * nat) :=
  search_from alts x 0 (S (length x)).

(** ** Run statistics *)

Record counters := mk_counters {
  short_neg : nat;
  short_clipped : nat;
  clipped : nat;
  negs : nat
}.

Definition counters0 : counters := mk_counters 0 0 0 0.

Definition incr_short_neg (c : counters) : counters :=
  mk_counters (S (short_neg c)) (short_clipped c) (clipped c) (negs c).
Definition incr_short_clipped (c : counters) : counters :=
  mk_counters (short_neg c) (S (short_clipped c)) (clipped c) (negs c).
Definition incr_clipped (c : counters) : counters :=
  mk_counters (short_neg c) (short_clipped c) (S (clipped c)) (negs c).
Definition incr_negs (c : counters) : counters :=
  mk_counters (short_neg c) (short_clipped c) (clipped c) (S (negs c)).

Definition total (c : counters) : nat :=
  short_neg c + short_clipped c + clipped c + negs c.

(** ** Records *)

(** A [fastqReader] record (base space). *)
Record fastq_read := mk_fastq {
  fq_title : str;
  fq_sequence : str;
  fq_quality : str
}.

Definition fq_set_sequence (r : fastq_read) (s : str) : fastq_read :=
  mk_fastq (fq_title r) s (fq_quality r).
Definition fq_set_quality (r : fastq_read) (q : str) : fastq_read :=
  mk_fastq (fq_title r) (fq_sequence r) q.

(** [len(record)]: the length of the sequence of a base-space read. *)
Definition fastq_len (r : fastq_read) : nat := length (fq_sequence r).

(** A [fastaReader] record. *)
Record fasta_read := mk_fasta {
  fa_title : str;
  fa_sequence : str
}.

Definition fa_set_sequence (r : fasta_read) (s : str) : fasta_read :=
  mk_fasta (fa_title r) s.

Definition fasta_len (r : fasta_read) : nat := length (fa_sequence r).

(** Values in a Biopython [SeqRecord.annotations] dictionary. *)
Inductive annot :=
| AInt (n : nat)
| AInts (l : list nat)
| AStr (s : str).

(** A [SeqRecord] from [SffIterator]: the two clip annotations the script
    reads and writes, and everything else it passes through (the flow
    values, flow index, flow chars and key live in [sff_annotations]). *)
Record sff_read := mk_sff {
  sff_id : str;
  sff_seq : str;
  sff_phred_quality : list nat;
  sff_clip_qual_left : nat;
  sff_clip_qual_right : nat;
  sff_annotations : list (str * annot)
}.

Definition sff_set_left (r : sff_read) (l : nat) : sff_read :=
  mk_sff (sff_id r) (sff_seq r) (sff_phred_quality r) l
    (sff_clip_qual_right r) (sff_annotations r).
Definition sff_set_right (r : sff_read) (v : nat) : sff_read :=
  mk_sff (sff_id r) (sff_seq r) (sff_phred_quality r) (sff_clip_qual_left r)
    v (sff_annotations r).

(** [str(record.seq)[left_clip:right_clip]] *)
Definition sff_window (r : sff_read) : str :=
  py_slice (sff_clip_qual_left r) (sff_clip_qual_right r) (sff_seq r).

(** ** The per-record loop bodies *)

Section Clip.
Variable primer : list pat.
Variable min_len : nat.
Variable keep_negatives : bool.

(** SFF, forward primer: move the left clip along. *)
Definition sff_step_fwd (c : counters) (record : sff_read)
  : counters * option sff_read :=
  let left_clip := sff_clip_qual_left record in
  let seq := upper (sff_window record) in
  match search primer seq with
  | Some (_, e) =>
      if min_len <=? length seq - e
      then (incr_clipped c, Some (sff_set_left record (left_clip + e)))
      else (incr_short_clipped c, None)
  | None =>
      if keep_negatives then
        if min_len <=? length seq then (incr_negs c, Some record)
        else (incr_short_neg c, None)
      else (c, None)
  end.

(** SFF, reverse primer: move the right clip back. *)
Definition sff_step_rev (c : counters) (record : sff_read)
  : counters * option sff_read :=
  let left_clip := sff_clip_qual_left record in
  let seq := upper (sff_window record) in
  match search primer seq with
  | Some (s, _) =>
      let new_len := s in
      if min_len <=? new_len
      then (incr_clipped c, Some (sff_set_right record (left_clip + new_len)))
      else (incr_short_clipped c, None)
  | None =>
      if keep_negatives then
        if min_len <=? length seq then (incr_negs c, Some record)
        else (incr_short_neg c, None)
      else (c, None)
  end.

(** FASTQ, forward primer: take everything after it. *)
Definition fastq_step_fwd (c : counters) (record : fastq_read)
  : counters * option fastq_read :=
  let seq := upper (fq_sequence record) in
  match search primer seq with
  | Some (_, e) =>
      let cut := e in
      let record := fq_set_sequence record (skipn cut seq) in
      if min_len <=? length (fq_sequence record)
      then (incr_clipped c,
            Some (fq_set_quality record (skipn cut (fq_quality record))))
      else (incr_short_clipped c, None)
  | None =>
      if keep_negatives then
        if min_len <=? fastq_len record then (incr_negs c, Some record)
        else (incr_short_neg c, None)
      else (c, None)
  end.

(** FASTQ, reverse primer: take everything before it. *)
Definition fastq_step_rev (c : counters) (record : fastq_read)
  : counters * option fastq_read :=
  let seq := upper (fq_sequence record) in
  match search primer seq with
  | Some (s, _) =>
      let cut := s in
      let record := fq_set_sequence record (firstn cut seq) in
      if min_len <=? length (fq_sequence record)
      then (incr_clipped c,
            Some (fq_set_quality record (firstn cut (fq_quality record))))
      else (incr_short_clipped c, None)
  | None =>
      if keep_negatives then
        if min_len <=? fastq_len record then (incr_negs c, Some record)
        else (incr_short_neg c, None)
      else (c, None)
  end.

(** FASTA, forward primer. *)
Definition fasta_step_fwd (c : counters) (record : fasta_read)
  : counters * option fasta_read :=
  let seq := upper (fa_sequence record) in
  match search primer seq with
  | Some (_, e) =>
      let cut := e in
      let record := fa_set_sequence record (skipn cut seq) in
      if min_len <=? length (fa_sequence record)
      then (incr_clipped c, Some record)
      else (incr_short_clipped c, None)
  | None =>
      if keep_negatives then
        if min_len <=? fasta_len record then (incr_negs c, Some record)
        else (incr_short_neg c, None)
      else (c, None)
  end.

(** FASTA, reverse primer. *)
Definition fasta_step_rev (c : counters) (record : fasta_read)
  : counters * option fasta_read :=
  let seq := upper (fa_sequence record) in
  match search primer seq with
  | Some (s, _) =>
      let cut := s in
      let record := fa_set_sequence record (firstn cut seq) in
      if min_len <=? length (fa_sequence record)
      then (incr_clipped c, Some record)
      else (incr_short_clipped c, None)
  | None =>
      if keep_negatives then
        if min_len <=? fasta_len record then (incr_negs c, Some record)
        else (incr_short_neg c, None)
      else (c, None)
  end.

End Clip.

(** The [for record in reader] loop (or the [process] generator): counters
    threaded through, emitted records in order. *)
Fixpoint run {R : Type} (step : counters -> R -> counters * option R)
  (c : counters) (records : list R) : counters * list R :=
  match records with
  | [] => (c, [])
  | r :: rs =>
      let (c1, o) := step c r in
      let (c2, out) := run step c1 rs in
      (c2, match o with Some r' => r' :: out | None => out end)
  end.

(** ** Script set-up *)

(** The mismatch argument after [int(mm)]: [sys.exit] if negative,
    [NotImplementedError] unless it is 0, 1 or 2. *)
Definition check_mm (mm : Z) : res nat :=
  if (mm <? 0)%Z then Err SysExit
  else if (mm =? 0)%Z || (mm =? 1)%Z || (mm =? 2)%Z then Ok (Z.to_nat mm)
  else Err NotImplementedError.

(** From the mismatch argument to the loaded primers. *)
Definition build_matcher (reverse_complement : str -> str) (primers : list str)
  (mm : Z) (rc : bool) : res (nat * list pat) :=
  m <- check_mm mm ;; load_primers_as_re reverse_complement primers m rc.

(** [re.compile("|".join(primers))] for the sorted pattern list: an empty
    list joins to [""], the regex with one empty alternative. *)
Definition re_compile (primers : list pat) : list pat :=
  match primers with
  | [] => [[]]
  | _ => primers
  end.

(** The script: build the matcher, then run a loop body (given the compiled
    alternatives) over the records, starting from zero counters. *)
Definition clip_main {R : Type}
  (step : list pat -> counters -> R -> counters * option R)
  (reverse_complement : str -> str) (primers : list str) (mm : Z) (rc : bool)
  (records : list R) : res (nat * (counters * list R)) :=
  cp <- build_matcher reverse_complement primers mm rc ;;
  Ok (fst cp, run (step (re_compile (snd cp))) counters0 records).

(** ** Command line *)

(** Python's [str.lower] on ASCII: only [A]..[Z] change. *)
Definition lower_char (c : ascii) : ascii :=
  let n := nat_of_ascii c in
  if (65 <=? n) && (n <=? 90) then ascii_of_nat (n + 32) else c.

Definition lower (x : str) : str := map lower_char x.

(** Python [==] on strings. *)
Definition str_eqb (a b : str) : bool :=
  if list_eq_dec ascii_dec a b then true else false.

(** [x in [...]] for a list of strings. *)
Definition str_in (x : str) (l : list str) : bool := existsb (str_eqb x) l.

(** The parsed command line. *)
Record config := mk_config {
  cfg_in_file : str;
  cfg_seq_format : str;
  cfg_primer_fasta : str;
  cfg_forward : bool;
  cfg_rc : bool;
  cfg_mm : nat;
  cfg_min_len : nat;
  cfg_keep_negatives : bool;
  cfg_out_file : str
}.

(** [-v] or [--version]: print the version and [sys.exit(0)]. *)
Inductive parsed :=
| PVersion
| PConfig (cfg : config).

(** The [keep_negatives] argument. *)
Definition parse_keep_negatives (s : str) : res bool :=
  if str_in (lower s) [S_ "true"; S_ "yes"; S_ "on"] then Ok true
  else if str_in (lower s) [S_ "false"; S_ "no"; S_ "off"] then Ok false
  else Err SysExit.

(** The [primer_type] argument: [(forward, rc)]. *)
Definition parse_primer_type (s : str) : res (bool * bool) :=
  if str_eqb (lower s) (S_ "forward") then Ok (true, false)
  else if str_eqb (lower s) (S_ "reverse") then Ok (false, false)
  else if str_eqb (lower s) (S_ "reverse-complement") then Ok (false, true)
  else Err SysExit.

Section Args.
(** Python's [int] on a command line argument; [None] for [ValueError]. *)
Variable py_int : str -> option Z.

(** The module-level argument handling, in the script's order, from
    [sys.argv] (whose head is the script name). *)
Definition parse_args (argv : list str) : res parsed :=
  if str_in (S_ "-v") argv || str_in (S_ "--version") argv then Ok PVersion else
  match tl argv with
  | [in_file; seq_format; primer_fasta; primer_type; mm; min_len;
     keep_negatives; out_file] =>
      if str_eqb in_file primer_fasta then Err SysExit else
      if str_eqb in_file out_file then Err SysExit else
      if str_eqb primer_fasta out_file then Err SysExit else
      match py_int mm with
      | None => Err SysExit
      | Some z =>
          m <- check_mm z ;;
          match py_int min_len with
          | None => Err SysExit
          | Some ml =>
              if (ml <? 0)%Z then Err SysExit else
              keep <- parse_keep_negatives keep_negatives ;;
              fr <- parse_primer_type primer_type ;;
              Ok (PConfig (mk_config in_file seq_format primer_fasta (fst fr)
                             (snd fr) m (Z.to_nat ml) keep out_file))
          end
      end
  | _ => Err SysExit
  end.
End Args.


(** ** Auxiliary definitions for the statements *)

(** Atoms that consume one character. *)
Definition anchor_free (t : tok) : bool :=
  match t with TBol | TEol => false | _ => true end.

(** An anchor-free pattern against the text from the match position. *)
Fixpoint plain_ok (p : pat) (l : str) : bool :=
  match p, l with
  | [], _ => true
  | t :: r, c :: l' => tok_char_ok t c && plain_ok r l'
  | _ :: _, [] => false
  end.

(** The atom [make_reg_ex] produces for [A], [C], [G], [T] and [N]. *)
Definition acgtn_tok (c : ascii) : tok :=
  if Ascii.eqb c "N"%char then TAny else TLit c.

Definition acgt (c : ascii) : Prop := In c (S_ "ACGT").

(** Following the spec's "plain substring search" (Python's [str.find]):
    the leftmost [i] with [x[i:i+len(w)] == w]. *)
Fixpoint prefix_b (w l : str) : bool :=
  match w, l with
  | [], _ => true
  | a :: w', b :: l' => Ascii.eqb a b && prefix_b w' l'
  | _ :: _, [] => false
  end.

Fixpoint find_from (w x : str) (pos fuel : nat) : option nat :=
  match fuel with
  | O => None
  | S fuel' => if prefix_b w (skipn pos x) then Some pos else find_from w x (S pos) fuel'
  end.

Definition str_find (w x : str) : option nat := find_from w x 0 (S (length x)).

(** [x] with the base at position [i] replaced by [b]. *)
Definition subst_at (x : str) (i : nat) (b : ascii) : str :=
  firstn i x ++ b :: skipn (S i) x.

(** No primer pattern matches the record's (uppercased) sequence. *)
Definition fq_unmatched (primer : list pat) (r : fastq_read) : bool :=
  match search primer (upper (fq_sequence r)) with Some _ => false | None => true end.

Definition fa_unmatched (primer : list pat) (r : fasta_read) : bool :=
  match search primer (upper (fa_sequence r)) with Some _ => false | None => true end.

Definition sff_unmatched (primer : list pat) (r : sff_read) : bool :=
  match search primer (upper (sff_window r)) with Some _ => false | None => true end.

(** The step counted the record in [clipped] or [short_clipped]. *)
Definition clip_counted (c c' : counters) : Prop :=
  c' = incr_clipped c \/ c' = incr_short_clipped c.

(** The sixteen keys of [ambiguous_dna_values]. *)
Definition iupac (c : ascii) : Prop := In c (S_ "ACGTMRWSYKVHDBXN").

(** * General lemmas *)

(** ** Lists and characters *)

Lemma Forall_firstn_str (P : ascii -> Prop) n (l : str) :
  Forall P l -> Forall P (firstn n l).
Proof.
  revert l; induction n as [|n IH]; intros [|x l] H; simpl; auto.
  inversion H; subst; constructor; auto.
Qed.

Lemma Forall_skipn_str (P : ascii -> Prop) n (l : str) :
  Forall P l -> Forall P (skipn n l).
Proof.
  revert l; induction n as [|n IH]; intros [|x l] H; simpl; auto.
  inversion H; subst; auto.
Qed.

Lemma skipn_nth_error (x : str) pos :
  skipn pos x =
  match nth_error x pos with Some c => c :: skipn (S pos) x | None => [] end.
Proof.
  revert pos; induction x as [|a x IH]; intros [|pos]; simpl; auto.
Qed.

Lemma upper_char_idem c : upper_char (upper_char c) = upper_char c.
Proof.
  destruct c as [[] [] [] [] [] [] [] []]; reflexivity.
Qed.

Lemma upper_idem x : upper (upper x) = upper x.
Proof.
  unfold upper; rewrite map_map; apply map_ext; apply upper_char_idem.
Qed.

Lemma upper_skipn n x : upper (skipn n x) = skipn n (upper x).
Proof. unfold upper; now rewrite skipn_map. Qed.

Lemma upper_firstn n x : upper (firstn n x) = firstn n (upper x).
Proof. unfold upper; now rewrite firstn_map. Qed.

Lemma length_upper x : length (upper x) = length x.
Proof. unfold upper; apply length_map. Qed.

(** ** The alternation order *)

Lemma In_insert_desc a p l : In a (insert_desc p l) <-> a = p \/ In a l.
Proof.
  induction l as [|q l IH]; simpl.
  - intuition congruence.
  - destruct (pat_len q <? pat_len p); simpl; [intuition congruence|].
    rewrite IH; intuition congruence.
Qed.

Lemma In_sort_by_len a l : In a (sort_by_len l) <-> In a l.
Proof.
  unfold sort_by_len.
  enough (forall acc, In a (fold_left (fun acc p => insert_desc p acc) l acc)
                      <-> In a acc \/ In a l) by (rewrite H; simpl; tauto).
  induction l as [|p l IH]; intros acc; simpl; [tauto|].
  rewrite IH, In_insert_desc; intuition congruence.
Qed.

(** ** Search *)

Lemma first_alt_None alts x pos :
  first_alt alts x pos = None <-> forall a, In a alts -> match_at a x pos = None.
Proof.
  induction alts as [|a alts IH]; simpl.
  - split; auto; contradiction.
  - destruct (match_at a x pos) eqn:E.
    + split; [discriminate|]. intros H; rewrite H in E; auto.
    + rewrite IH; split.
      * intros H b [<-|Hb]; auto.
      * intros H b Hb; auto.
Qed.

Lemma search_from_None alts x pos fuel :
  search_from alts x pos fuel = None <->
  forall k, pos <= k < pos + fuel -> first_alt alts x k = None.
Proof.
  revert pos; induction fuel as [|fuel IH]; intros pos; simpl.
  - split; auto; intros; lia.
  - destruct (first_alt alts x pos) eqn:E.
    + split; [discriminate|]. intros H; rewrite H in E; [discriminate|lia].
    + rewrite IH; split.
      * intros H k Hk. destruct (Nat.eq_dec k pos); [subst; auto|]. apply H; lia.
      * intros H k Hk; apply H; lia.
Qed.

(** The search fails iff no alternative matches at any start position. *)
Lemma search_None alts x :
  search alts x = None <->
  forall a pos, In a alts -> pos <= length x -> match_at a x pos = None.
Proof.
  unfold search; rewrite search_from_None; split.
  - intros H a pos Ha Hp. apply (proj1 (first_alt_None alts x pos)); auto.
    apply H; lia.
  - intros H k Hk. apply first_alt_None; intros a Ha; apply H; auto; lia.
Qed.

Lemma first_alt_Some alts x pos e :
  first_alt alts x pos = Some e -> exists a, In a alts /\ match_at a x pos = Some e.
Proof.
  induction alts as [|a alts IH]; simpl; [discriminate|].
  destruct (match_at a x pos) eqn:E.
  - intros [= <-]; exists a; auto.
  - intros H; destruct (IH H) as (b & Hb & Hm); exists b; auto.
Qed.

Lemma search_from_Some alts x pos fuel s e :
  search_from alts x pos fuel = Some (s, e) ->
  pos <= s < pos + fuel /\ first_alt alts x s = Some e.
Proof.
  revert pos; induction fuel as [|fuel IH]; intros pos; simpl; [discriminate|].
  destruct (first_alt alts x pos) eqn:E.
  - intros [= <- <-]; split; auto; lia.
  - intros H; destruct (IH _ H); split; auto; lia.
Qed.

(** A match is found by one of the alternatives at a position
    [0 <= s <= len(x)]. *)
Lemma search_Some alts x s e :
  search alts x = Some (s, e) ->
  s <= length x /\ exists a, In a alts /\ match_at a x s = Some e.
Proof.
  unfold search; intros H; apply search_from_Some in H as [Hs H].
  split; [lia|]. now apply first_alt_Some.
Qed.

Lemma search_exists alts x a pos :
  In a alts -> pos <= length x -> match_at a x pos <> None -> search alts x <> None.
Proof.
  intros Ha Hp Hm H. rewrite search_None in H. apply Hm; auto.
Qed.

(** ** Anchor-free patterns *)

Lemma match_at_char t p x pos :
  anchor_free t = true ->
  match_at (t :: p) x pos =
  match nth_error x pos with
  | Some c => if tok_char_ok t c then match_at p x (S pos) else None
  | None => None
  end.
Proof. destruct t; discriminate || reflexivity. Qed.

Lemma match_at_plain p x pos :
  forallb anchor_free p = true ->
  match_at p x pos = if plain_ok p (skipn pos x) then Some (pos + length p) else None.
Proof.
  revert pos; induction p as [|t p IH]; intros pos Hp.
  - simpl; now rewrite Nat.add_0_r.
  - simpl in Hp; apply andb_prop in Hp as [Ht Hp].
    rewrite match_at_char by auto; rewrite (skipn_nth_error x pos).
    destruct (nth_error x pos) as [c|]; simpl; auto.
    destruct (tok_char_ok t c); simpl; auto.
    rewrite IH by auto; now replace (S pos + length p) with (pos + S (length p)) by lia.
Qed.

Lemma plain_ok_lits w l : plain_ok (map TLit w) l = prefix_b w l.
Proof.
  revert l; induction w as [|a w IH]; intros [|b l]; simpl; auto.
  now rewrite IH.
Qed.

Lemma prefix_b_firstn w l : prefix_b w l = true <-> firstn (length w) l = w.
Proof.
  revert l; induction w as [|a w IH]; intros [|b l]; simpl.
  - tauto.
  - tauto.
  - split; discriminate.
  - rewrite andb_true_iff, IH, Ascii.eqb_eq; split.
    + intros [-> ->]; auto.
    + intros [= -> ->]; auto.
Qed.

Lemma plain_ok_length p l : plain_ok p l = true -> length p <= length l.
Proof.
  revert l; induction p as [|t p IH]; intros [|c l]; simpl; try lia; try discriminate.
  intros H; apply andb_prop in H as [_ H]; apply IH in H; lia.
Qed.

Lemma plain_ok_nth p l m :
  plain_ok p l = true -> m < length p ->
  tok_char_ok (nth m p TAny) (nth m l "000"%char) = true.
Proof.
  revert l m; induction p as [|t p IH]; intros [|c l] m H Hm; simpl in *; try lia;
    try discriminate.
  apply andb_prop in H as [H1 H2]; destruct m; auto; apply IH; auto; lia.
Qed.

Lemma plain_ok_app p1 p2 l1 l2 :
  length p1 = length l1 ->
  plain_ok (p1 ++ p2) (l1 ++ l2) = plain_ok p1 l1 && plain_ok p2 l2.
Proof.
  revert l1; induction p1 as [|t p1 IH]; intros [|c l1] H; simpl in *; try lia; auto.
  rewrite IH by lia; apply andb_assoc.
Qed.

Lemma forallb_anchor_free_acgtn w : forallb anchor_free (map acgtn_tok w) = true.
Proof.
  induction w as [|c w IH]; simpl; auto.
  unfold acgtn_tok; destruct (Ascii.eqb c "N"%char); simpl; auto.
Qed.

(** ** The patterns of [A]/[C]/[G]/[T]/[N] sequences *)

Lemma make_reg_ex_acgtn w :
  Forall (fun c => In c (S_ "ACGTN")) w -> make_reg_ex w = Ok (map acgtn_tok w).
Proof.
  unfold make_reg_ex; induction w as [|c w IH]; intros H; simpl; auto.
  inversion H as [|? ? Hc Hw]; subst.
  rewrite IH by auto.
  simpl in Hc; destruct Hc as [<-|[<-|[<-|[<-|[<-|[]]]]]]; reflexivity.
Qed.

Lemma acgtn_tok_acgt w : Forall acgt w -> map acgtn_tok w = map TLit w.
Proof.
  intros H; apply map_ext_in; intros c Hc.
  apply (proj1 (Forall_forall _ _) H) in Hc.
  destruct Hc as [<-|[<-|[<-|[<-|[]]]]]; reflexivity.
Qed.

Lemma acgt_acgtn w : Forall acgt w -> Forall (fun c => In c (S_ "ACGTN")) w.
Proof.
  intros H; eapply Forall_impl; [|exact H].
  intros c [<-|[<-|[<-|[<-|[]]]]]; simpl; tauto.
Qed.

Lemma make_reg_ex_acgt w : Forall acgt w -> make_reg_ex w = Ok (map TLit w).
Proof.
  intros H; rewrite make_reg_ex_acgtn by (now apply acgt_acgtn).
  now rewrite acgtn_tok_acgt.
Qed.

Lemma upper_acgt p :
  Forall (fun c => acgt (upper_char c)) p -> Forall acgt (upper p).
Proof. intros H; now apply Forall_map. Qed.

Lemma upper_id_acgt p : Forall acgt p -> upper p = p.
Proof.
  unfold upper; intros H; induction H as [|c p Hc _ IH]; simpl; auto.
  rewrite IH; f_equal.
  destruct Hc as [<-|[<-|[<-|[<-|[]]]]]; reflexivity.
Qed.

Lemma make_reg_ex_mm_0 q :
  Forall (fun c => acgt (upper_char c)) q ->
  make_reg_ex_mm q 0 = Ok [map TLit (upper q)].
Proof.
  intros H; unfold make_reg_ex_mm; simpl.
  rewrite make_reg_ex_acgt by (now apply upper_acgt). reflexivity.
Qed.

Lemma forallb_anchor_free_lits w : forallb anchor_free (map TLit w) = true.
Proof. induction w; simpl; auto. Qed.

Lemma search_lits w x :
  search [map TLit w] x = option_map (fun i => (i, i + length w)) (str_find w x).
Proof.
  unfold search, str_find; generalize 0 as pos; generalize (S (length x)) as fuel.
  induction fuel as [|fuel IH]; intros pos; simpl; auto.
  rewrite match_at_plain by apply forallb_anchor_free_lits.
  rewrite plain_ok_lits, length_map.
  destruct (prefix_b w (skipn pos x)); simpl; auto.
Qed.

(** An end-anchored alternative ["$" + reg] with a non-empty literal body:
    after [$] at most a final newline is left, which no base literal
    matches. *)
Lemma eol_lits_never w x pos :
  w <> [] -> ~ In newline w -> match_at (TEol :: map TLit w) x pos = None.
Proof.
  intros Hw Hn; simpl.
  destruct (eol_at x pos) eqn:E; auto.
  rewrite match_at_plain by apply forallb_anchor_free_lits.
  rewrite plain_ok_lits.
  destruct w as [|a w]; [congruence|].
  unfold eol_at in E; apply orb_true_iff in E as [E|E].
  - apply Nat.eqb_eq in E; subst pos. now rewrite skipn_all.
  - apply andb_true_iff in E as [E1 E2]. apply Nat.eqb_eq in E1.
    rewrite (skipn_nth_error x pos).
    destruct (nth_error x pos) as [c|]; [|discriminate].
    apply Ascii.eqb_eq in E2; subst c.
    simpl. destruct (Ascii.eqb a newline) eqn:Ea; auto.
    apply Ascii.eqb_eq in Ea; subst a; exfalso; apply Hn; now left.
Qed.

Ltac in_list := repeat (first [left; reflexivity | right]).

Ltac forall_acgt := repeat (apply Forall_cons; [cbn; in_list|]); apply Forall_nil.

(** * Claims *)

(** ** C1 *)

(** C1 (code_bug): for primer [CCGACTCGAG] and one mismatch, the pattern
    set holds the end-anchored alternative for the primer without its last
    base, written ["$" + reg] as [$CCGACTCGA]; a read ending with that
    prefix, [TTTCCGACTCGA], is not matched: [$] placed before the body
    cannot be followed by any base. *)
Theorem C1_end_truncated_primer_not_matched :
  exists alts,
    load_primers_as_re (fun x => x) [S_ "CCGACTCGAG"] 1 false = Ok (1, alts) /\
    In (TEol :: map TLit (S_ "CCGACTCGA")) alts /\
    search alts (S_ "TTTCCGACTCGA") = None.
Proof.
  eexists; split; [reflexivity|]. split.
  - vm_compute; in_list.
  - vm_compute; reflexivity.
Qed.

(** ** C3 *)

(** C3: with mismatches = 0 and a primer (after orientation) made of A, C,
    G and T only, in either case, the matcher loads without error and its
    search finds a match exactly when the uppercased primer occurs in the
    target; the span is [(i, i + len)] for the leftmost occurrence [i]
    found by a plain substring search. *)
Theorem C3_exact_match_is_substring_search (rcf : str -> str) (p : str)
  (rc : bool) (x : str) :
  Forall (fun c => acgt (upper_char c)) (if rc then rcf p else p) ->
  exists alts,
    load_primers_as_re rcf [p] 0 rc = Ok (1, alts) /\
    search alts x =
      option_map (fun i => (i, i + length (if rc then rcf p else p)))
        (str_find (upper (if rc then rcf p else p)) x).
Proof.
  intros H. unfold load_primers_as_re; simpl.
  rewrite make_reg_ex_mm_0 by auto. simpl.
  eexists; split; [reflexivity|].
  change (sort_by_len [?q]) with [q].
  now rewrite search_lits, length_upper.
Qed.

Lemma C3_witness :
  exists alts,
    load_primers_as_re (fun x => x) [S_ "acg"] 0 false = Ok (1, alts) /\
    search alts (S_ "TTACGT") =
      option_map (fun i => (i, i + length (S_ "acg"))) (str_find (upper (S_ "acg")) (S_ "TTACGT")).
Proof.
  apply (C3_exact_match_is_substring_search (fun x => x) (S_ "acg") false (S_ "TTACGT")).
  forall_acgt.
Defined.

(** ** The pattern set for one mismatch *)

Lemma mapM_ok {A B} (f : A -> res B) (g : A -> B) l :
  (forall x, In x l -> f x = Ok (g x)) -> mapM f l = Ok (map g l).
Proof.
  induction l as [|x l IH]; intros H; simpl; auto.
  rewrite H by (now left); simpl. rewrite IH by (intros; apply H; now right).
  reflexivity.
Qed.

Lemma acgt_upper_char p : Forall acgt p -> Forall (fun c => acgt (upper_char c)) p.
Proof.
  intros H; eapply Forall_impl; [|exact H].
  intros c [<-|[<-|[<-|[<-|[]]]]]; cbn; in_list.
Qed.

Lemma n_at_acgtn p i :
  Forall acgt p -> Forall (fun c => In c (S_ "ACGTN")) (n_at p i).
Proof.
  intros H; apply acgt_acgtn in H. unfold n_at; apply Forall_app; split.
  - now apply Forall_firstn_str.
  - constructor; [cbn; in_list|]. now apply Forall_skipn_str.
Qed.

Lemma make_reg_ex_mm_1 p :
  Forall acgt p ->
  make_reg_ex_mm p 1 =
  Ok (map TLit p :: (TBol :: map TLit (skipn 1 p))
      :: (TEol :: map TLit (firstn (length p - 1) p))
      :: map (fun i => map acgtn_tok (n_at p i)) (List.seq 0 (length p))).
Proof.
  intros H. unfold make_reg_ex_mm.
  change (mrm 2 p 1) with
    (r0 <- make_reg_ex (upper p) ;;
     trunc <- mapM (fun i =>
                a <- make_reg_ex_mm (skipn i (upper p)) (1 - i) ;;
                b <- make_reg_ex_mm (firstn (length (upper p) - i) (upper p)) (1 - i) ;;
                Ok (map (cons TBol) a ++ map (cons TEol) b)) [1] ;;
     ones <- mapM make_reg_ex (single_n (upper p)) ;;
     twos <- Ok [] ;;
     Ok (r0 :: concat trunc ++ ones ++ twos)).
  rewrite (upper_id_acgt p H), (make_reg_ex_acgt p H).
  cbn [bind mapM Nat.sub].
  rewrite !make_reg_ex_mm_0
    by (apply acgt_upper_char; auto using Forall_firstn_str, Forall_skipn_str).
  rewrite (upper_id_acgt (skipn 1 p)) by (now apply Forall_skipn_str).
  rewrite (upper_id_acgt (firstn _ p)) by (now apply Forall_firstn_str).
  unfold single_n.
  rewrite (mapM_ok make_reg_ex (fun s => map acgtn_tok s))
    by (intros s Hs; apply make_reg_ex_acgtn;
        apply in_map_iff in Hs as (i & <- & _); now apply n_at_acgtn).
  cbn [bind]. simpl. now rewrite app_nil_r, map_map.
Qed.

Lemma load_single (rcf : str -> str) (p : str) (mm : nat) (rc : bool) (L : list pat) :
  make_reg_ex_mm (if rc then rcf p else p) mm = Ok L ->
  load_primers_as_re rcf [p] mm rc = Ok (1, sort_by_len (nodup pat_eq_dec (L ++ []))).
Proof. intros H; unfold load_primers_as_re; cbn [mapM]; now rewrite H. Qed.

Lemma In_load_single a L :
  In a (sort_by_len (nodup pat_eq_dec (L ++ []))) <-> In a L.
Proof. now rewrite In_sort_by_len, nodup_In, app_nil_r. Qed.

(** ** Substituted sequences *)

Lemma length_subst_at x i b : i < length x -> length (subst_at x i b) = length x.
Proof.
  intros H; unfold subst_at; rewrite length_app; cbn [length].
  rewrite length_firstn, length_skipn; lia.
Qed.

Lemma nth_subst_at x i b m d :
  i < length x -> nth m (subst_at x i b) d = if m =? i then b else nth m x d.
Proof.
  intros H; unfold subst_at.
  assert (Hf : length (firstn i x) = i) by (rewrite length_firstn; lia).
  destruct (lt_eq_lt_dec m i) as [[Hm|Hm]|Hm].
  - rewrite app_nth1 by lia. rewrite nth_firstn.
    replace (m <? i) with true by (symmetry; apply Nat.ltb_lt; lia).
    replace (m =? i) with false by (symmetry; apply Nat.eqb_neq; lia). reflexivity.
  - subst m; rewrite app_nth2 by lia; rewrite Hf, Nat.sub_diag, Nat.eqb_refl; reflexivity.
  - rewrite app_nth2 by lia; rewrite Hf.
    replace (m =? i) with false by (symmetry; apply Nat.eqb_neq; lia).
    replace (m - i) with (S (m - S i)) by lia; cbn [nth].
    rewrite nth_skipn; f_equal; lia.
Qed.

Lemma acgt_newline b : acgt b -> Ascii.eqb b newline = false.
Proof. intros [<-|[<-|[<-|[<-|[]]]]]; reflexivity. Qed.

Lemma acgtn_tok_of_acgt c : acgt c -> acgtn_tok c = TLit c.
Proof. intros [<-|[<-|[<-|[<-|[]]]]]; reflexivity. Qed.

Lemma nth_map_lt {A B} (f : A -> B) l m d d' :
  m < length l -> nth m (map f l) d' = f (nth m l d).
Proof.
  intros H; rewrite (nth_indep _ d' (f d)) by (now rewrite length_map).
  apply map_nth.
Qed.

Lemma plain_ok_lits_self w r : plain_ok (map TLit w) (w ++ r) = true.
Proof.
  rewrite plain_ok_lits, prefix_b_firstn, firstn_app, Nat.sub_diag, firstn_all.
  simpl; apply app_nil_r.
Qed.

Lemma Forall_acgt_nth p m : Forall acgt p -> m < length p -> acgt (nth m p "000"%char).
Proof. intros H Hm; apply (proj1 (Forall_forall _ _) H), nth_In; auto. Qed.

(** ** C4 *)

(** C4 counterexample: primer [AAT] with one mismatch; the target [ATG]
    is [AAT] with bases substituted at positions 1 and 2, and it matches
    at [(0, 2)] through the start-truncation alternative [^AT]. *)
Lemma C4_two_substitutions_can_match :
  exists alts,
    load_primers_as_re (fun x => x) [S_ "AAT"] 1 false = Ok (1, alts) /\
    S_ "ATG" = subst_at (subst_at (S_ "AAT") 1 "T"%char) 2 "G"%char /\
    search alts (S_ "ATG") = Some (0, 2).
Proof.
  eexists; split; [reflexivity|]; split; vm_compute; reflexivity.
Qed.

(** With mismatches = 1 and a primer [p] of A, C, G, T, the matcher loads
    without error; a target equal to [p] with one base substituted (by A,
    C, G or T) matches; a target equal to [p] with bases substituted at
    two distinct positions matches exactly when its first [len(p) - 1]
    bases equal the last [len(p) - 1] bases of [p] (the start-truncation
    alternative [^p[1:]]). *)
Lemma one_mismatch_substitutions_load (rcf : str -> str) (p : str) :
  Forall acgt p ->
  exists alts,
    load_primers_as_re rcf [p] 1 false = Ok (1, alts) /\
    (forall i b, i < length p -> acgt b -> search alts (subst_at p i b) <> None) /\
    (forall i j b1 b2, i < j < length p -> acgt b1 -> acgt b2 ->
       b1 <> nth i p "000"%char -> b2 <> nth j p "000"%char ->
       (search alts (subst_at (subst_at p i b1) j b2) <> None <->
        firstn (length p - 1) (subst_at (subst_at p i b1) j b2) = skipn 1 p)).
Proof.
  intros Hp.
  eexists; split; [exact (load_single rcf p 1 false _ (make_reg_ex_mm_1 p Hp))|].
  set (alts := sort_by_len _).
  split.
  - (* one substitution: the alternative with [N] at [i] matches at 0 *)
    intros i b Hi Hb.
    apply (search_exists _ _ (map acgtn_tok (n_at p i)) 0).
    + apply In_load_single; right; right; right.
      apply in_map_iff; exists i; split; auto; apply in_seq; lia.
    + lia.
    + rewrite match_at_plain by apply forallb_anchor_free_acgtn.
      unfold n_at, subst_at; rewrite skipn_O, map_app, plain_ok_app
        by (now rewrite length_map).
      rewrite acgtn_tok_acgt by (now apply Forall_firstn_str).
      rewrite <- (app_nil_r (firstn i p)) at 2; rewrite plain_ok_lits_self.
      cbn [map plain_ok]. unfold acgtn_tok at 1; cbn [Ascii.eqb Bool.eqb].
      unfold tok_char_ok; rewrite acgt_newline by auto.
      rewrite acgtn_tok_acgt by (now apply Forall_skipn_str).
      rewrite <- (app_nil_r (skipn (S i) p)) at 2; rewrite plain_ok_lits_self.
      discriminate.
  - intros i j b1 b2 [Hij Hj] Hb1 Hb2 Hd1 Hd2.
    set (t := subst_at (subst_at p i b1) j b2).
    assert (Hl1 : length (subst_at p i b1) = length p) by (apply length_subst_at; lia).
    assert (Hlen : length t = length p) by (unfold t; rewrite length_subst_at; lia).
    assert (Hti : nth i t "000"%char = b1).
    { unfold t; rewrite nth_subst_at by lia.
      replace (i =? j) with false by (symmetry; apply Nat.eqb_neq; lia).
      rewrite nth_subst_at by lia; now rewrite Nat.eqb_refl. }
    assert (Htj : nth j t "000"%char = b2).
    { unfold t; rewrite nth_subst_at by lia.
      now rewrite Nat.eqb_refl. }
    split.
    + intros Hs.
      destruct (search alts t) as [[s e]|] eqn:E; [|congruence].
      apply search_Some in E as [Hs_le (a & Ha & Hm)].
      unfold alts in Ha; rewrite In_load_single in Ha; cbn [In] in Ha.
      destruct Ha as [<-|[<-|[<-|Ha]]].
      * (* the whole primer *)
        rewrite match_at_plain in Hm by apply forallb_anchor_free_lits.
        destruct (plain_ok _ _) eqn:Hok; [|discriminate].
        pose proof (plain_ok_length _ _ Hok) as Hl.
        rewrite length_map, length_skipn in Hl.
        assert (s = 0) by lia; subst s; rewrite skipn_O in Hok.
        pose proof (plain_ok_nth _ _ i Hok) as Hn.
        rewrite length_map in Hn; specialize (Hn ltac:(lia)).
        rewrite (nth_map_lt _ _ _ "000"%char), Hti in Hn by lia.
        simpl in Hn; apply Ascii.eqb_eq in Hn; congruence.
      * (* [^p[1:]] *)
        cbn [match_at] in Hm. destruct s; [|discriminate].
        rewrite match_at_plain, plain_ok_lits in Hm by apply forallb_anchor_free_lits.
        destruct (prefix_b _ _) eqn:Hok; [|discriminate].
        apply prefix_b_firstn in Hok. rewrite skipn_O, length_skipn in Hok.
        now replace (length p - 1) with (length p - 1) by lia.
      * (* ["$" + p[:-1]] *)
        rewrite eol_lits_never in Hm; [congruence| |].
        -- intros H0; apply (f_equal (@length ascii)) in H0.
           rewrite length_firstn in H0; simpl in H0; lia.
        -- intros Hn.
           apply (proj1 (Forall_forall _ _) (Forall_firstn_str _ (length p - 1) p Hp)) in Hn.
           pose proof (acgt_newline _ Hn) as Hf; now rewrite Ascii.eqb_refl in Hf.
      * (* one [N] at [k] *)
        apply in_map_iff in Ha as (k & <- & Hk); apply in_seq in Hk.
        rewrite match_at_plain in Hm by apply forallb_anchor_free_acgtn.
        destruct (plain_ok _ _) eqn:Hok; [|discriminate].
        pose proof (plain_ok_length _ _ Hok) as Hl.
        unfold n_at in Hl; fold (subst_at p k "N"%char) in Hl.
        rewrite length_map, length_subst_at, length_skipn in Hl by lia.
        assert (s = 0) by lia; subst s; rewrite skipn_O in Hok.
        unfold n_at in Hok; fold (subst_at p k "N"%char) in Hok.
        destruct (Nat.eq_dec k i) as [->|Hki].
        -- pose proof (plain_ok_nth _ _ j Hok) as Hn.
           rewrite length_map, length_subst_at in Hn by lia; specialize (Hn ltac:(lia)).
           rewrite (nth_map_lt _ _ _ "000"%char), nth_subst_at, Htj in Hn
             by (try rewrite length_subst_at; lia).
           replace (j =? i) with false in Hn by (symmetry; apply Nat.eqb_neq; lia).
           rewrite acgtn_tok_of_acgt in Hn by (apply Forall_acgt_nth; auto; lia).
           simpl in Hn; apply Ascii.eqb_eq in Hn; congruence.
        -- pose proof (plain_ok_nth _ _ i Hok) as Hn.
           rewrite length_map, length_subst_at in Hn by lia; specialize (Hn ltac:(lia)).
           rewrite (nth_map_lt _ _ _ "000"%char), nth_subst_at, Hti in Hn
             by (try rewrite length_subst_at; lia).
           replace (i =? k) with false in Hn by (symmetry; apply Nat.eqb_neq; lia).
           rewrite acgtn_tok_of_acgt in Hn by (apply Forall_acgt_nth; auto; lia).
           simpl in Hn; apply Ascii.eqb_eq in Hn; congruence.
    + intros Heq.
      apply (search_exists _ _ (TBol :: map TLit (skipn 1 p)) 0).
      * apply In_load_single; right; left; reflexivity.
      * lia.
      * cbn [match_at Nat.eqb].
        rewrite match_at_plain, plain_ok_lits by apply forallb_anchor_free_lits.
        rewrite skipn_O.
        replace (prefix_b (skipn 1 p) t) with true; [discriminate|].
        symmetry; apply prefix_b_firstn; now rewrite length_skipn.
Qed.

(** C4 (amended): with mismatches = 1 and a primer [p] of A, C, G, T, the
    matcher loads without error, and a target equal to [p] with one base
    substituted (by A, C, G or T) matches.  A target equal to [p] with
    bases substituted at two distinct positions matches when its first
    [len(p) - 1] bases equal the last [len(p) - 1] bases of [p] (the
    primer's first base runs off the start of the read, alternative
    [^p[1:]]); it does not match when moreover its last [len(p) - 1]
    bases differ from the first [len(p) - 1] bases of [p] (the mirror
    case, where the primer runs off the end of the read, is not
    covered). *)
Theorem C4_one_mismatch_substitutions (rcf : str -> str) (p : str) :
  Forall acgt p ->
  exists alts,
    load_primers_as_re rcf [p] 1 false = Ok (1, alts) /\
    (forall i b, i < length p -> acgt b -> search alts (subst_at p i b) <> None) /\
    (forall i j b1 b2, i < j < length p -> acgt b1 -> acgt b2 ->
       b1 <> nth i p "000"%char -> b2 <> nth j p "000"%char ->
       (firstn (length p - 1) (subst_at (subst_at p i b1) j b2) = skipn 1 p ->
        search alts (subst_at (subst_at p i b1) j b2) <> None) /\
       (firstn (length p - 1) (subst_at (subst_at p i b1) j b2) <> skipn 1 p ->
        skipn 1 (subst_at (subst_at p i b1) j b2) <> firstn (length p - 1) p ->
        search alts (subst_at (subst_at p i b1) j b2) = None)).
Proof.
  intros Hp.
  destruct (one_mismatch_substitutions_load rcf p Hp) as (alts & Hl & H1 & H2).
  exists alts; split; [exact Hl|]; split; [exact H1|].
  intros i j b1 b2 Hij Hb1 Hb2 Hd1 Hd2.
  pose proof (H2 i j b1 b2 Hij Hb1 Hb2 Hd1 Hd2) as [Hto Hfrom]; split.
  - exact Hfrom.
  - intros Hne _.
    destruct (search alts _) as [se|]; [|reflexivity].
    exfalso; apply Hne, Hto; discriminate.
Qed.

(** C4 on the primer [ACGT]: [TCGG] (positions 0 and 3 substituted) has
    neither [CGT] in front nor [ACG] at the back and does not match. *)
Lemma C4_witness :
  Forall acgt (S_ "ACGT") /\
  exists alts,
    load_primers_as_re (fun x => x) [S_ "ACGT"] 1 false = Ok (1, alts) /\
    search alts (subst_at (subst_at (S_ "ACGT") 0 "T"%char) 3 "G"%char) = None.
Proof.
  assert (Hp : Forall acgt (S_ "ACGT")) by forall_acgt.
  split; [exact Hp|].
  destruct (C4_one_mismatch_substitutions (fun x => x) (S_ "ACGT") Hp)
    as (alts & Hl & _ & H2).
  exists alts; split; [exact Hl|].
  apply (proj2 (H2 0 3 "T"%char "G"%char ltac:(cbn; lia) ltac:(cbn; auto)
                   ltac:(cbn; auto) ltac:(discriminate) ltac:(discriminate)));
    vm_compute; discriminate.
Defined.

(** ** The SFF clip window after moving a clip point *)

Lemma sff_window_set_left r e :
  sff_window (sff_set_left r (sff_clip_qual_left r + e)) = skipn e (sff_window r).
Proof.
  unfold sff_window, py_slice; simpl.
  rewrite skipn_firstn_comm, skipn_skipn.
  f_equal; [lia | f_equal; lia].
Qed.

Lemma sff_window_set_right r s :
  s <= length (sff_window r) ->
  sff_window (sff_set_right r (sff_clip_qual_left r + s)) = firstn s (sff_window r).
Proof.
  unfold sff_window, py_slice; simpl; intros Hs.
  rewrite length_firstn in Hs.
  rewrite firstn_firstn; f_equal; lia.
Qed.

Lemma search_start_le alts x s e : search alts x = Some (s, e) -> s <= length x.
Proof. intros H; now apply search_Some in H. Qed.

(** ** C2 *)

(** C2: for a record whose (uppercased, windowed) sequence [seq] has a
    first match [(s, e)]: a forward primer keeps [seq[e:]], of length
    [len(seq) - e]; a reverse primer keeps [seq[:s]], of length [s]; the
    record is emitted clipped (counted in [clipped]) iff that length is at
    least [min_len], and otherwise counted in [short_clipped] and not
    emitted.  This holds for FASTQ (sequence and quality cut together),
    FASTA and SFF (only the clip point moves, so the new window is the kept
    region). *)
Theorem C2_clip_region_and_length_filter (primer : list pat) (min_len : nat)
  (keep : bool) (c : counters) :
  (forall r s e, search primer (upper (fq_sequence r)) = Some (s, e) ->
     fastq_step_fwd primer min_len keep c r =
     if min_len <=? length (upper (fq_sequence r)) - e
     then (incr_clipped c, Some (mk_fastq (fq_title r) (skipn e (upper (fq_sequence r)))
                                   (skipn e (fq_quality r))))
     else (incr_short_clipped c, None)) /\
  (forall r s e, search primer (upper (fq_sequence r)) = Some (s, e) ->
     fastq_step_rev primer min_len keep c r =
     if min_len <=? s
     then (incr_clipped c, Some (mk_fastq (fq_title r) (firstn s (upper (fq_sequence r)))
                                   (firstn s (fq_quality r))))
     else (incr_short_clipped c, None)) /\
  (forall r s e, search primer (upper (fa_sequence r)) = Some (s, e) ->
     fasta_step_fwd primer min_len keep c r =
     if min_len <=? length (upper (fa_sequence r)) - e
     then (incr_clipped c, Some (mk_fasta (fa_title r) (skipn e (upper (fa_sequence r)))))
     else (incr_short_clipped c, None)) /\
  (forall r s e, search primer (upper (fa_sequence r)) = Some (s, e) ->
     fasta_step_rev primer min_len keep c r =
     if min_len <=? s
     then (incr_clipped c, Some (mk_fasta (fa_title r) (firstn s (upper (fa_sequence r)))))
     else (incr_short_clipped c, None)) /\
  (forall r s e, search primer (upper (sff_window r)) = Some (s, e) ->
     sff_step_fwd primer min_len keep c r =
       (if min_len <=? length (upper (sff_window r)) - e
        then (incr_clipped c, Some (sff_set_left r (sff_clip_qual_left r + e)))
        else (incr_short_clipped c, None)) /\
     upper (sff_window (sff_set_left r (sff_clip_qual_left r + e)))
       = skipn e (upper (sff_window r))) /\
  (forall r s e, search primer (upper (sff_window r)) = Some (s, e) ->
     sff_step_rev primer min_len keep c r =
       (if min_len <=? s
        then (incr_clipped c, Some (sff_set_right r (sff_clip_qual_left r + s)))
        else (incr_short_clipped c, None)) /\
     upper (sff_window (sff_set_right r (sff_clip_qual_left r + s)))
       = firstn s (upper (sff_window r))).
Proof.
  split; [|split; [|split; [|split; [|split]]]].
  - intros r s e H; unfold fastq_step_fwd; cbv zeta; rewrite H; cbn [fq_sequence fq_set_sequence fq_set_quality fq_title fq_quality].
    now rewrite length_skipn.
  - intros r s e H; unfold fastq_step_rev; cbv zeta; rewrite H; cbn [fq_sequence fq_set_sequence fq_set_quality fq_title fq_quality].
    apply search_start_le in H.
    rewrite length_firstn; now replace (Nat.min s _) with s by lia.
  - intros r s e H; unfold fasta_step_fwd; cbv zeta; rewrite H; cbn [fa_sequence fa_set_sequence fa_title].
    now rewrite length_skipn.
  - intros r s e H; unfold fasta_step_rev; cbv zeta; rewrite H; cbn [fa_sequence fa_set_sequence fa_title].
    apply search_start_le in H.
    rewrite length_firstn; now replace (Nat.min s _) with s by lia.
  - intros r s e H; split; [unfold sff_step_fwd; now rewrite H|].
    now rewrite sff_window_set_left, upper_skipn.
  - intros r s e H; split; [unfold sff_step_rev; now rewrite H|].
    apply search_start_le in H; rewrite length_upper in H.
    now rewrite sff_window_set_right, upper_firstn.
Qed.

Lemma C2_witness :
  fastq_step_fwd [map TLit (S_ "AACCGG")] 3 false counters0
    (mk_fastq (S_ "r1") (S_ "AACCGGTTTT") (S_ "IIIIIIIIII"))
  = (incr_clipped counters0, Some (mk_fastq (S_ "r1") (S_ "TTTT") (S_ "IIII"))).
Proof.
  rewrite (proj1 (C2_clip_region_and_length_filter [map TLit (S_ "AACCGG")] 3 false
                    counters0) (mk_fastq (S_ "r1") (S_ "AACCGGTTTT") (S_ "IIIIIIIIII")) 0 6
                    ltac:(vm_compute; reflexivity)).
  vm_compute; reflexivity.
Defined.

(** ** C5 *)

(** C5: for a record on which no primer pattern matches: with
    keep-unmatched off it is never emitted and no counter changes; with it
    on, it is emitted unchanged (counted in [negs]) iff its effective length
    is at least [min_len], and otherwise counted in [short_neg]. *)
Theorem C5_keep_unmatched_policy (primer : list pat) (min_len : nat)
  (keep : bool) (c : counters) :
  (forall r, search primer (upper (fq_sequence r)) = None ->
     fastq_step_fwd primer min_len keep c r =
       (if keep then
          if min_len <=? length (fq_sequence r) then (incr_negs c, Some r)
          else (incr_short_neg c, None)
        else (c, None)) /\
     fastq_step_rev primer min_len keep c r =
       (if keep then
          if min_len <=? length (fq_sequence r) then (incr_negs c, Some r)
          else (incr_short_neg c, None)
        else (c, None))) /\
  (forall r, search primer (upper (fa_sequence r)) = None ->
     fasta_step_fwd primer min_len keep c r =
       (if keep then
          if min_len <=? length (fa_sequence r) then (incr_negs c, Some r)
          else (incr_short_neg c, None)
        else (c, None)) /\
     fasta_step_rev primer min_len keep c r =
       (if keep then
          if min_len <=? length (fa_sequence r) then (incr_negs c, Some r)
          else (incr_short_neg c, None)
        else (c, None))) /\
  (forall r, search primer (upper (sff_window r)) = None ->
     sff_step_fwd primer min_len keep c r =
       (if keep then
          if min_len <=? length (sff_window r) then (incr_negs c, Some r)
          else (incr_short_neg c, None)
        else (c, None)) /\
     sff_step_rev primer min_len keep c r =
       (if keep then
          if min_len <=? length (sff_window r) then (incr_negs c, Some r)
          else (incr_short_neg c, None)
        else (c, None))).
Proof.
  split; [|split]; intros r H; split.
  - unfold fastq_step_fwd; cbv zeta; now rewrite H.
  - unfold fastq_step_rev; cbv zeta; now rewrite H.
  - unfold fasta_step_fwd; cbv zeta; now rewrite H.
  - unfold fasta_step_rev; cbv zeta; now rewrite H.
  - unfold sff_step_fwd; cbv zeta; now rewrite H, length_upper.
  - unfold sff_step_rev; cbv zeta; now rewrite H, length_upper.
Qed.

Lemma C5_witness :
  fastq_step_fwd [map TLit (S_ "AACCGG")] 3 true counters0
    (mk_fastq (S_ "r2") (S_ "ttttt") (S_ "IIIII"))
  = (incr_negs counters0, Some (mk_fastq (S_ "r2") (S_ "ttttt") (S_ "IIIII"))).
Proof.
  rewrite (proj1 (proj1 (C5_keep_unmatched_policy [map TLit (S_ "AACCGG")] 3 true
                           counters0) (mk_fastq (S_ "r2") (S_ "ttttt") (S_ "IIIII"))
                           ltac:(vm_compute; reflexivity))).
  reflexivity.
Defined.

(** ** C9 *)

Ltac step_cases :=
  match goal with
  | |- context [match search ?a ?x with _ => _ end] =>
      destruct (search a x) as [[? ?]|]
  end;
  repeat match goal with
  | |- context [if ?b then _ else _] => destruct b
  end;
  intros Hstep; inversion Hstep; subst; clear Hstep.

(** C9: an SFF record emitted by the forward loop differs from the input
    at most in [clip_qual_left], and one emitted by the reverse loop at most
    in [clip_qual_right]: identifier, raw sequence, qualities and the other
    annotations (flow data included) are the input's. *)
Theorem C9_sff_only_clip_points_change (primer : list pat) (min_len : nat)
  (keep : bool) (c : counters) :
  (forall r c' r', sff_step_fwd primer min_len keep c r = (c', Some r') ->
     sff_id r' = sff_id r /\ sff_seq r' = sff_seq r /\
     sff_phred_quality r' = sff_phred_quality r /\
     sff_clip_qual_right r' = sff_clip_qual_right r /\
     sff_annotations r' = sff_annotations r) /\
  (forall r c' r', sff_step_rev primer min_len keep c r = (c', Some r') ->
     sff_id r' = sff_id r /\ sff_seq r' = sff_seq r /\
     sff_phred_quality r' = sff_phred_quality r /\
     sff_clip_qual_left r' = sff_clip_qual_left r /\
     sff_annotations r' = sff_annotations r).
Proof.
  split; intros r c' r'.
  - unfold sff_step_fwd; cbv zeta; step_cases; simpl; auto.
  - unfold sff_step_rev; cbv zeta; step_cases; simpl; auto.
Qed.

Lemma C9_witness :
  sff_id (sff_set_left (mk_sff (S_ "r3") (S_ "TCAGAACCGGTT") [30; 30] 4 12 []) 10)
  = S_ "r3" /\
  sff_seq (sff_set_left (mk_sff (S_ "r3") (S_ "TCAGAACCGGTT") [30; 30] 4 12 []) 10)
  = S_ "TCAGAACCGGTT" /\
  sff_phred_quality (sff_set_left (mk_sff (S_ "r3") (S_ "TCAGAACCGGTT") [30; 30] 4 12 []) 10)
  = [30; 30] /\
  sff_clip_qual_right (sff_set_left (mk_sff (S_ "r3") (S_ "TCAGAACCGGTT") [30; 30] 4 12 []) 10)
  = 12 /\
  sff_annotations (sff_set_left (mk_sff (S_ "r3") (S_ "TCAGAACCGGTT") [30; 30] 4 12 []) 10)
  = [].
Proof.
  apply (proj1 (C9_sff_only_clip_points_change [map TLit (S_ "AACCGG")] 1 false counters0)
           (mk_sff (S_ "r3") (S_ "TCAGAACCGGTT") [30; 30] 4 12 []) (incr_clipped counters0)).
  vm_compute; reflexivity.
Defined.

(** ** C10 *)

(** C10: for FASTA and FASTQ, a record emitted as clipped carries the
    uppercased kept region as its sequence, while a record emitted under
    keep-unmatched is the input record itself (original case included). *)
Theorem C10_clipped_uppercased_unmatched_verbatim (primer : list pat)
  (min_len : nat) (keep : bool) (c : counters) :
  (forall r s e c' r', search primer (upper (fq_sequence r)) = Some (s, e) ->
     fastq_step_fwd primer min_len keep c r = (c', Some r') ->
     fq_sequence r' = skipn e (upper (fq_sequence r))) /\
  (forall r s e c' r', search primer (upper (fq_sequence r)) = Some (s, e) ->
     fastq_step_rev primer min_len keep c r = (c', Some r') ->
     fq_sequence r' = firstn s (upper (fq_sequence r))) /\
  (forall r s e c' r', search primer (upper (fa_sequence r)) = Some (s, e) ->
     fasta_step_fwd primer min_len keep c r = (c', Some r') ->
     fa_sequence r' = skipn e (upper (fa_sequence r))) /\
  (forall r s e c' r', search primer (upper (fa_sequence r)) = Some (s, e) ->
     fasta_step_rev primer min_len keep c r = (c', Some r') ->
     fa_sequence r' = firstn s (upper (fa_sequence r))) /\
  (forall r c' r', search primer (upper (fq_sequence r)) = None ->
     fastq_step_fwd primer min_len keep c r = (c', Some r') -> r' = r) /\
  (forall r c' r', search primer (upper (fq_sequence r)) = None ->
     fastq_step_rev primer min_len keep c r = (c', Some r') -> r' = r) /\
  (forall r c' r', search primer (upper (fa_sequence r)) = None ->
     fasta_step_fwd primer min_len keep c r = (c', Some r') -> r' = r) /\
  (forall r c' r', search primer (upper (fa_sequence r)) = None ->
     fasta_step_rev primer min_len keep c r = (c', Some r') -> r' = r).
Proof.
  split; [|split; [|split; [|split; [|split; [|split; [|split]]]]]];
    intros r;
    [intros s e c' r' H; unfold fastq_step_fwd
    |intros s e c' r' H; unfold fastq_step_rev
    |intros s e c' r' H; unfold fasta_step_fwd
    |intros s e c' r' H; unfold fasta_step_rev
    |intros c' r' H; unfold fastq_step_fwd
    |intros c' r' H; unfold fastq_step_rev
    |intros c' r' H; unfold fasta_step_fwd
    |intros c' r' H; unfold fasta_step_rev];
    cbv zeta; rewrite H;
    repeat match goal with
    | |- context [if ?b then _ else _] => destruct b
    end;
    intros Hstep; inversion Hstep; subst; reflexivity.
Qed.

Lemma C10_witness :
  fq_sequence (mk_fastq (S_ "r4") (S_ "TTTT") (S_ "IIII"))
  = skipn 6 (upper (S_ "aaccggtttt")).
Proof.
  apply (proj1 (C10_clipped_uppercased_unmatched_verbatim [map TLit (S_ "AACCGG")] 3 false
                  counters0) (mk_fastq (S_ "r4") (S_ "aaccggtttt") (S_ "IIIIIIIIII")) 0 6
           (incr_clipped counters0) (mk_fastq (S_ "r4") (S_ "TTTT") (S_ "IIII")));
    vm_compute; reflexivity.
Defined.

(** ** Counting over a run *)

Lemma run_total {R : Type} (step : counters -> R -> counters * option R)
  (u : R -> bool) (keep : bool) :
  (forall c r, total (fst (step c r)) + (if negb keep && u r then 1 else 0) = total c + 1) ->
  forall rs c,
    total (fst (run step c rs)) + (if keep then 0 else length (filter u rs))
    = total c + length rs.
Proof.
  intros Hstep rs; induction rs as [|r rs IH]; intros c; simpl.
  - destruct keep; simpl; lia.
  - specialize (Hstep c r).
    destruct (step c r) as [c1 o] eqn:E1; simpl in Hstep.
    destruct (run step c1 rs) as [c2 out] eqn:E2; simpl.
    specialize (IH c1); rewrite E2 in IH; simpl in IH.
    destruct keep, (u r); simpl in *; lia.
Qed.

Ltac count_step k :=
  cbv zeta;
  match goal with
  | |- context [match search ?a ?x with _ => _ end] =>
      destruct (search a x) as [[? ?]|]
  end;
  destruct k; cbn [negb andb];
  repeat match goal with
  | |- context [if ?b then _ else _] => destruct b
  end;
  unfold total; simpl; lia.

Lemma fastq_fwd_total primer min_len keep c r :
  total (fst (fastq_step_fwd primer min_len keep c r))
  + (if negb keep && fq_unmatched primer r then 1 else 0) = total c + 1.
Proof. unfold fastq_step_fwd, fq_unmatched; count_step keep. Qed.

Lemma fastq_rev_total primer min_len keep c r :
  total (fst (fastq_step_rev primer min_len keep c r))
  + (if negb keep && fq_unmatched primer r then 1 else 0) = total c + 1.
Proof. unfold fastq_step_rev, fq_unmatched; count_step keep. Qed.

Lemma fasta_fwd_total primer min_len keep c r :
  total (fst (fasta_step_fwd primer min_len keep c r))
  + (if negb keep && fa_unmatched primer r then 1 else 0) = total c + 1.
Proof. unfold fasta_step_fwd, fa_unmatched; count_step keep. Qed.

Lemma fasta_rev_total primer min_len keep c r :
  total (fst (fasta_step_rev primer min_len keep c r))
  + (if negb keep && fa_unmatched primer r then 1 else 0) = total c + 1.
Proof. unfold fasta_step_rev, fa_unmatched; count_step keep. Qed.

Lemma sff_fwd_total primer min_len keep c r :
  total (fst (sff_step_fwd primer min_len keep c r))
  + (if negb keep && sff_unmatched primer r then 1 else 0) = total c + 1.
Proof. unfold sff_step_fwd, sff_unmatched; count_step keep. Qed.

Lemma sff_rev_total primer min_len keep c r :
  total (fst (sff_step_rev primer min_len keep c r))
  + (if negb keep && sff_unmatched primer r then 1 else 0) = total c + 1.
Proof. unfold sff_step_rev, sff_unmatched; count_step keep. Qed.

(** ** C7 *)

(** C7 counterexample: with keep-unmatched off, one FASTQ record on which
    the primer does not match leaves all four counters at 0 after the run,
    though one record was processed. *)
Lemma C7_unmatched_record_not_counted :
  total (fst (run (fastq_step_fwd [map TLit (S_ "AACCGG")] 0 false) counters0
                [mk_fastq (S_ "r6") (S_ "TTTT") (S_ "IIII")])) = 0 /\
  length [mk_fastq (S_ "r6") (S_ "TTTT") (S_ "IIII")] = 1.
Proof. split; vm_compute; reflexivity. Qed.

(** C7 (amended): every processed record increments exactly one of the
    four counters, except a record on which no primer matches while
    keep-unmatched is off, which increments none; after a run the sum of
    the counters is the number of records minus (with keep-unmatched off)
    the number of unmatched records.  For every format and orientation. *)
Theorem C7_counter_sum (primer : list pat) (min_len : nat) (keep : bool) (c : counters) :
  (forall rs,
     total (fst (run (fastq_step_fwd primer min_len keep) c rs))
     + (if keep then 0 else length (filter (fq_unmatched primer) rs))
     = total c + length rs) /\
  (forall rs,
     total (fst (run (fastq_step_rev primer min_len keep) c rs))
     + (if keep then 0 else length (filter (fq_unmatched primer) rs))
     = total c + length rs) /\
  (forall rs,
     total (fst (run (fasta_step_fwd primer min_len keep) c rs))
     + (if keep then 0 else length (filter (fa_unmatched primer) rs))
     = total c + length rs) /\
  (forall rs,
     total (fst (run (fasta_step_rev primer min_len keep) c rs))
     + (if keep then 0 else length (filter (fa_unmatched primer) rs))
     = total c + length rs) /\
  (forall rs,
     total (fst (run (sff_step_fwd primer min_len keep) c rs))
     + (if keep then 0 else length (filter (sff_unmatched primer) rs))
     = total c + length rs) /\
  (forall rs,
     total (fst (run (sff_step_rev primer min_len keep) c rs))
     + (if keep then 0 else length (filter (sff_unmatched primer) rs))
     = total c + length rs).
Proof.
  split; [|split; [|split; [|split; [|split]]]]; intros rs; apply run_total;
    intros; auto using fastq_fwd_total, fastq_rev_total, fasta_fwd_total,
      fasta_rev_total, sff_fwd_total, sff_rev_total.
Qed.

(** ** C6 *)

(** C6 counterexample: primer [AC], no mismatches, forward FASTQ,
    [min_len = 0], keep-unmatched on.  The read [ACAC] is clipped to [AC];
    running the loop body again on that output clips it a second time. *)
Lemma C6_second_run_clips_again :
  exists alts,
    load_primers_as_re (fun x => x) [S_ "AC"] 0 false = Ok (1, alts) /\
    fastq_step_fwd alts 0 true counters0 (mk_fastq (S_ "r5") (S_ "ACAC") (S_ "IIII"))
    = (incr_clipped counters0, Some (mk_fastq (S_ "r5") (S_ "AC") (S_ "II"))) /\
    fastq_step_fwd alts 0 true counters0 (mk_fastq (S_ "r5") (S_ "AC") (S_ "II"))
    = (incr_clipped counters0, Some (mk_fastq (S_ "r5") [] [])).
Proof.
  eexists; split; [reflexivity|]; split; vm_compute; reflexivity.
Qed.

Lemma not_clip_counted_negs c : ~ clip_counted c (incr_negs c).
Proof.
  unfold clip_counted; intros [H|H];
    [apply (f_equal clipped) in H | apply (f_equal short_clipped) in H]; simpl in H; lia.
Qed.

Lemma not_clip_counted_short_neg c : ~ clip_counted c (incr_short_neg c).
Proof.
  unfold clip_counted; intros [H|H];
    [apply (f_equal clipped) in H | apply (f_equal short_clipped) in H]; simpl in H; lia.
Qed.

Lemma not_clip_counted_same c : ~ clip_counted c c.
Proof.
  unfold clip_counted; intros [H|H];
    [apply (f_equal clipped) in H | apply (f_equal short_clipped) in H]; simpl in H; lia.
Qed.

Ltac clip_iff k :=
  cbv zeta;
  match goal with
  | |- context [match search ?a ?x with _ => _ end] =>
      destruct (search a x) as [[? ?]|]
  end;
  [ split; [intros _; discriminate|intros _];
    unfold clip_counted;
    match goal with |- context [if ?b then _ else _] => destruct b end; simpl; auto
  | split; [|intros H; exfalso; apply H; reflexivity]; intros Hc;
    destruct k;
    repeat match goal with Hc : context [if ?b then _ else _] |- _ => destruct b end;
    simpl in Hc;
    first [ now apply not_clip_counted_negs in Hc
          | now apply not_clip_counted_short_neg in Hc
          | now apply not_clip_counted_same in Hc ] ].

(** A loop body counts a record as clipped (kept or too short) iff the
    search on its uppercased sequence matches. *)
Lemma fastq_fwd_clip_iff primer min_len keep c r :
  clip_counted c (fst (fastq_step_fwd primer min_len keep c r))
  <-> search primer (upper (fq_sequence r)) <> None.
Proof. unfold fastq_step_fwd; clip_iff keep. Qed.

Lemma fastq_rev_clip_iff primer min_len keep c r :
  clip_counted c (fst (fastq_step_rev primer min_len keep c r))
  <-> search primer (upper (fq_sequence r)) <> None.
Proof. unfold fastq_step_rev; clip_iff keep. Qed.

Lemma fasta_fwd_clip_iff primer min_len keep c r :
  clip_counted c (fst (fasta_step_fwd primer min_len keep c r))
  <-> search primer (upper (fa_sequence r)) <> None.
Proof. unfold fasta_step_fwd; clip_iff keep. Qed.

Lemma fasta_rev_clip_iff primer min_len keep c r :
  clip_counted c (fst (fasta_step_rev primer min_len keep c r))
  <-> search primer (upper (fa_sequence r)) <> None.
Proof. unfold fasta_step_rev; clip_iff keep. Qed.

Lemma sff_fwd_clip_iff primer min_len keep c r :
  clip_counted c (fst (sff_step_fwd primer min_len keep c r))
  <-> search primer (upper (sff_window r)) <> None.
Proof. unfold sff_step_fwd; clip_iff keep. Qed.

Lemma sff_rev_clip_iff primer min_len keep c r :
  clip_counted c (fst (sff_step_rev primer min_len keep c r))
  <-> search primer (upper (sff_window r)) <> None.
Proof. unfold sff_step_rev; clip_iff keep. Qed.

Ltac emitted H :=
  intros Hstep; cbv zeta in Hstep; rewrite H in Hstep;
  repeat match type of Hstep with context [if ?b then _ else _] => destruct b end;
  inversion Hstep; subst; clear Hstep.

(** The record a loop body emits after a match at [(s, e)]. *)
Lemma fastq_fwd_emitted primer min_len keep c r s e c1 r' :
  search primer (upper (fq_sequence r)) = Some (s, e) ->
  fastq_step_fwd primer min_len keep c r = (c1, Some r') ->
  fq_sequence r' = skipn e (upper (fq_sequence r)).
Proof. intros H; unfold fastq_step_fwd; emitted H; reflexivity. Qed.

Lemma fastq_rev_emitted primer min_len keep c r s e c1 r' :
  search primer (upper (fq_sequence r)) = Some (s, e) ->
  fastq_step_rev primer min_len keep c r = (c1, Some r') ->
  fq_sequence r' = firstn s (upper (fq_sequence r)).
Proof. intros H; unfold fastq_step_rev; emitted H; reflexivity. Qed.

Lemma fasta_fwd_emitted primer min_len keep c r s e c1 r' :
  search primer (upper (fa_sequence r)) = Some (s, e) ->
  fasta_step_fwd primer min_len keep c r = (c1, Some r') ->
  fa_sequence r' = skipn e (upper (fa_sequence r)).
Proof. intros H; unfold fasta_step_fwd; emitted H; reflexivity. Qed.

Lemma fasta_rev_emitted primer min_len keep c r s e c1 r' :
  search primer (upper (fa_sequence r)) = Some (s, e) ->
  fasta_step_rev primer min_len keep c r = (c1, Some r') ->
  fa_sequence r' = firstn s (upper (fa_sequence r)).
Proof. intros H; unfold fasta_step_rev; emitted H; reflexivity. Qed.

Lemma sff_fwd_emitted primer min_len keep c r s e c1 r' :
  search primer (upper (sff_window r)) = Some (s, e) ->
  sff_step_fwd primer min_len keep c r = (c1, Some r') ->
  upper (sff_window r') = skipn e (upper (sff_window r)).
Proof.
  intros H; unfold sff_step_fwd; emitted H.
  now rewrite sff_window_set_left, upper_skipn.
Qed.

Lemma sff_rev_emitted primer min_len keep c r s e c1 r' :
  search primer (upper (sff_window r)) = Some (s, e) ->
  sff_step_rev primer min_len keep c r = (c1, Some r') ->
  upper (sff_window r') = firstn s (upper (sff_window r)).
Proof.
  intros H; pose proof (search_start_le _ _ _ _ H) as Hs.
  rewrite length_upper in Hs; unfold sff_step_rev; emitted H.
  now rewrite sff_window_set_right, upper_firstn.
Qed.

(** C6 (amended): running a loop body a second time on a record it emitted
    as clipped searches the kept region afresh: the emitted sequence is the
    kept region (already uppercased), and the second run counts a clip
    again (kept or too short) exactly when some primer pattern matches in
    that kept region, so the result is not idempotent in general.  For
    FASTQ, FASTA and SFF, both orientations. *)
Theorem C6_second_run_searches_kept_region (primer : list pat) (min_len : nat)
  (keep : bool) (c c2 : counters) :
  (forall r s e c1 r', search primer (upper (fq_sequence r)) = Some (s, e) ->
     fastq_step_fwd primer min_len keep c r = (c1, Some r') ->
     fq_sequence r' = skipn e (upper (fq_sequence r)) /\
     (clip_counted c2 (fst (fastq_step_fwd primer min_len keep c2 r'))
      <-> search primer (skipn e (upper (fq_sequence r))) <> None)) /\
  (forall r s e c1 r', search primer (upper (fq_sequence r)) = Some (s, e) ->
     fastq_step_rev primer min_len keep c r = (c1, Some r') ->
     fq_sequence r' = firstn s (upper (fq_sequence r)) /\
     (clip_counted c2 (fst (fastq_step_rev primer min_len keep c2 r'))
      <-> search primer (firstn s (upper (fq_sequence r))) <> None)) /\
  (forall r s e c1 r', search primer (upper (fa_sequence r)) = Some (s, e) ->
     fasta_step_fwd primer min_len keep c r = (c1, Some r') ->
     fa_sequence r' = skipn e (upper (fa_sequence r)) /\
     (clip_counted c2 (fst (fasta_step_fwd primer min_len keep c2 r'))
      <-> search primer (skipn e (upper (fa_sequence r))) <> None)) /\
  (forall r s e c1 r', search primer (upper (fa_sequence r)) = Some (s, e) ->
     fasta_step_rev primer min_len keep c r = (c1, Some r') ->
     fa_sequence r' = firstn s (upper (fa_sequence r)) /\
     (clip_counted c2 (fst (fasta_step_rev primer min_len keep c2 r'))
      <-> search primer (firstn s (upper (fa_sequence r))) <> None)) /\
  (forall r s e c1 r', search primer (upper (sff_window r)) = Some (s, e) ->
     sff_step_fwd primer min_len keep c r = (c1, Some r') ->
     upper (sff_window r') = skipn e (upper (sff_window r)) /\
     (clip_counted c2 (fst (sff_step_fwd primer min_len keep c2 r'))
      <-> search primer (skipn e (upper (sff_window r))) <> None)) /\
  (forall r s e c1 r', search primer (upper (sff_window r)) = Some (s, e) ->
     sff_step_rev primer min_len keep c r = (c1, Some r') ->
     upper (sff_window r') = firstn s (upper (sff_window r)) /\
     (clip_counted c2 (fst (sff_step_rev primer min_len keep c2 r'))
      <-> search primer (firstn s (upper (sff_window r))) <> None)).
Proof.
  split; [|split; [|split; [|split; [|split]]]]; intros r s e c1 r' H1 H2.
  - pose proof (fastq_fwd_emitted _ _ _ _ _ _ _ _ _ H1 H2) as Hs; split; auto.
    now rewrite fastq_fwd_clip_iff, Hs, upper_skipn, upper_idem.
  - pose proof (fastq_rev_emitted _ _ _ _ _ _ _ _ _ H1 H2) as Hs; split; auto.
    now rewrite fastq_rev_clip_iff, Hs, upper_firstn, upper_idem.
  - pose proof (fasta_fwd_emitted _ _ _ _ _ _ _ _ _ H1 H2) as Hs; split; auto.
    now rewrite fasta_fwd_clip_iff, Hs, upper_skipn, upper_idem.
  - pose proof (fasta_rev_emitted _ _ _ _ _ _ _ _ _ H1 H2) as Hs; split; auto.
    now rewrite fasta_rev_clip_iff, Hs, upper_firstn, upper_idem.
  - pose proof (sff_fwd_emitted _ _ _ _ _ _ _ _ _ H1 H2) as Hs; split; auto.
    now rewrite sff_fwd_clip_iff, Hs.
  - pose proof (sff_rev_emitted _ _ _ _ _ _ _ _ _ H1 H2) as Hs; split; auto.
    now rewrite sff_rev_clip_iff, Hs.
Qed.

Lemma C6_witness :
  fq_sequence (mk_fastq (S_ "r5") (S_ "AC") (S_ "II")) = skipn 2 (upper (S_ "ACAC")) /\
  (clip_counted counters0
     (fst (fastq_step_fwd [map TLit (S_ "AC")] 0 true counters0
             (mk_fastq (S_ "r5") (S_ "AC") (S_ "II"))))
   <-> search [map TLit (S_ "AC")] (skipn 2 (upper (S_ "ACAC"))) <> None).
Proof.
  apply (proj1 (C6_second_run_searches_kept_region [map TLit (S_ "AC")] 0 true
                  counters0 counters0)
           (mk_fastq (S_ "r5") (S_ "ACAC") (S_ "IIII")) 0 2 (incr_clipped counters0)
           (mk_fastq (S_ "r5") (S_ "AC") (S_ "II")));
    vm_compute; reflexivity.
Defined.

(** ** Pattern generation succeeds for at most two mismatches *)

Lemma mrm_S fuel seq mm :
  mrm (S fuel) seq mm =
  if 2 <? mm then Err NotImplementedError else
    r0 <- make_reg_ex (upper seq) ;;
    trunc <- mapM (fun i =>
               a <- mrm fuel (skipn i (upper seq)) (mm - i) ;;
               b <- mrm fuel (firstn (length (upper seq) - i) (upper seq)) (mm - i) ;;
               Ok (map (cons TBol) a ++ map (cons TEol) b))
             (List.seq 1 mm) ;;
    ones <- (if 1 <=? mm then mapM make_reg_ex (single_n (upper seq)) else Ok []) ;;
    twos <- (if 2 <=? mm then mapM make_reg_ex (double_n (upper seq)) else Ok []) ;;
    Ok (r0 :: concat trunc ++ ones ++ twos).
Proof. reflexivity. Qed.

Lemma mrm_too_many fuel seq mm : 2 < mm -> mrm fuel seq mm = Err NotImplementedError.
Proof.
  intros H; destruct fuel; cbn [mrm];
    replace (2 <? mm) with true by (symmetry; apply Nat.ltb_lt; lia); reflexivity.
Qed.

Lemma bind_Err {A B} (m : res A) (k : A -> res B) e :
  bind m k = Err e -> m = Err e \/ exists a, m = Ok a /\ k a = Err e.
Proof. destruct m; cbn; [right; eauto | left; congruence]. Qed.

Lemma mapM_Err {A B} (f : A -> res B) l e :
  mapM f l = Err e -> exists x, In x l /\ f x = Err e.
Proof.
  induction l as [|x l IH]; cbn; [discriminate|].
  intros H; apply bind_Err in H as [H|(y & _ & H)]; [exists x; auto|].
  apply bind_Err in H as [H|(ys & _ & H)]; [|discriminate].
  destruct (IH H) as (z & Hz & Hf); exists z; auto.
Qed.

Lemma mapM_exists {A B} (f : A -> res B) l :
  (forall x, In x l -> exists y, f x = Ok y) -> exists ys, mapM f l = Ok ys.
Proof.
  induction l as [|x l IH]; intros H; cbn; [eauto|].
  destruct (H x (or_introl eq_refl)) as [y ->]; cbn.
  destruct IH as [ys ->]; [intros; apply H; now right|]. cbn; eauto.
Qed.

Lemma make_reg_ex_Err w e : make_reg_ex w = Err e -> exists c, e = KeyError c.
Proof.
  unfold make_reg_ex; intros H; apply mapM_Err in H as (c & _ & H).
  unfold ambiguous_dna_re in H; destruct (assoc c ambiguous_dna_values);
    inversion H; eauto.
Qed.

Lemma ambiguous_dna_re_iupac c : iupac c -> exists t, ambiguous_dna_re c = Ok t.
Proof.
  intros Hc; repeat (destruct Hc as [<-|Hc]; [cbn; eauto|]); destruct Hc.
Qed.

Lemma make_reg_ex_iupac w : Forall iupac w -> exists p, make_reg_ex w = Ok p.
Proof.
  intros H; apply mapM_exists; intros c Hc.
  apply ambiguous_dna_re_iupac; now apply (proj1 (Forall_forall _ _) H).
Qed.

Lemma iupac_N : iupac "N"%char.
Proof. cbn; in_list. Qed.

Lemma Forall_upper_iupac seq :
  Forall (fun c => iupac (upper_char c)) seq -> Forall iupac (upper seq).
Proof. intros H; apply Forall_map, H. Qed.

Lemma Forall_upper_iupac' seq :
  Forall (fun c => iupac (upper_char c)) seq ->
  Forall (fun c => iupac (upper_char c)) (upper seq).
Proof.
  intros H; apply Forall_map; eapply Forall_impl; [|exact H].
  intros c; now rewrite upper_char_idem.
Qed.

Lemma single_n_iupac u s : Forall iupac u -> In s (single_n u) -> Forall iupac s.
Proof.
  intros Hu Hs; apply in_map_iff in Hs as (i & <- & _).
  unfold n_at; apply Forall_app; split; [now apply Forall_firstn_str|].
  constructor; [apply iupac_N | now apply Forall_skipn_str].
Qed.

Lemma double_n_iupac u s : Forall iupac u -> In s (double_n u) -> Forall iupac s.
Proof.
  intros Hu Hs; apply in_flat_map in Hs as (i & _ & Hs).
  apply in_map_iff in Hs as (k & <- & _).
  unfold nn_at; apply Forall_app; split; [now apply Forall_firstn_str|].
  constructor; [apply iupac_N|]. apply Forall_app; split.
  - now apply Forall_firstn_str, Forall_skipn_str.
  - constructor; [apply iupac_N | now apply Forall_skipn_str].
Qed.

(** On IUPAC letters, [make_reg_ex_mm] yields its patterns for [mm <= 2]. *)
Lemma mrm_ok fuel : forall seq mm, mm <= 2 -> mm < fuel ->
  Forall (fun c => iupac (upper_char c)) seq -> exists l, mrm fuel seq mm = Ok l.
Proof.
  induction fuel as [|fuel IH]; intros seq mm Hmm Hf Hs; [lia|].
  rewrite mrm_S. replace (2 <? mm) with false by (symmetry; apply Nat.ltb_ge; lia).
  pose proof (Forall_upper_iupac _ Hs) as Hu.
  pose proof (Forall_upper_iupac' _ Hs) as Hu'.
  destruct (make_reg_ex_iupac _ Hu) as [r0 ->]; cbn [bind].
  match goal with |- context [mapM ?f (List.seq 1 mm)] =>
    destruct (mapM_exists f (List.seq 1 mm)) as [tr ->] end.
  { intros i Hi; apply in_seq in Hi.
    destruct (IH (skipn i (upper seq)) (mm - i)) as [a ->];
      [lia | lia | now apply Forall_skipn_str|]; cbn [bind].
    destruct (IH (firstn (length (upper seq) - i) (upper seq)) (mm - i)) as [b ->];
      [lia | lia | now apply Forall_firstn_str|]; cbn [bind]; eauto. }
  cbn [bind].
  destruct (1 <=? mm).
  - destruct (mapM_exists make_reg_ex (single_n (upper seq))) as [o ->];
      [intros s Hi; apply make_reg_ex_iupac; eapply single_n_iupac; eauto|].
    cbn [bind]; destruct (2 <=? mm).
    + destruct (mapM_exists make_reg_ex (double_n (upper seq))) as [t ->];
        [intros s Hi; apply make_reg_ex_iupac; eapply double_n_iupac; eauto|].
      cbn [bind]; eauto.
    + cbn [bind]; eauto.
  - cbn [bind]; destruct (2 <=? mm).
    + destruct (mapM_exists make_reg_ex (double_n (upper seq))) as [t ->];
        [intros s Hi; apply make_reg_ex_iupac; eapply double_n_iupac; eauto|].
      cbn [bind]; eauto.
    + cbn [bind]; eauto.
Qed.

(** For [mm <= 2] the only exception [make_reg_ex_mm] raises is a
    [KeyError] on a letter outside the table. *)
Lemma mrm_Err fuel : forall seq mm e, mm <= 2 -> mm < fuel ->
  mrm fuel seq mm = Err e -> exists c, e = KeyError c.
Proof.
  induction fuel as [|fuel IH]; intros seq mm e Hmm Hf H; [lia|].
  rewrite mrm_S in H. replace (2 <? mm) with false in H by (symmetry; apply Nat.ltb_ge; lia).
  apply bind_Err in H as [H|(r0 & _ & H)]; [eapply make_reg_ex_Err; eauto|].
  apply bind_Err in H as [H|(tr & _ & H)].
  { apply mapM_Err in H as (i & Hi & H); apply in_seq in Hi.
    apply bind_Err in H as [H|(a & _ & H)]; [eapply IH; [| |exact H]; lia|].
    apply bind_Err in H as [H|(b & _ & H)]; [eapply IH; [| |exact H]; lia|].
    discriminate. }
  apply bind_Err in H as [H|(o & _ & H)].
  { destruct (1 <=? mm); [|discriminate].
    apply mapM_Err in H as (s & _ & H); eapply make_reg_ex_Err; eauto. }
  apply bind_Err in H as [H|(t & _ & H)]; [|discriminate].
  destruct (2 <=? mm); [|discriminate].
  apply mapM_Err in H as (s & _ & H); eapply make_reg_ex_Err; eauto.
Qed.

Lemma check_mm_small mm : (0 <= mm <= 2)%Z -> check_mm mm = Ok (Z.to_nat mm) /\ Z.to_nat mm <= 2.
Proof.
  intros H; unfold check_mm.
  assert (mm = 0 \/ mm = 1 \/ mm = 2)%Z as [-> | [-> | ->]] by lia; cbn; split; auto.
Qed.

Lemma check_mm_large mm : (2 < mm)%Z -> check_mm mm = Err NotImplementedError.
Proof.
  intros H; unfold check_mm.
  replace (mm <? 0)%Z with false by (symmetry; apply Z.ltb_ge; lia).
  replace (mm =? 0)%Z with false by (symmetry; apply Z.eqb_neq; lia).
  replace (mm =? 1)%Z with false by (symmetry; apply Z.eqb_neq; lia).
  replace (mm =? 2)%Z with false by (symmetry; apply Z.eqb_neq; lia).
  reflexivity.
Qed.

(** C8: a mismatch count above 2 makes the matcher build fail with
    [NotImplementedError], so no pattern set is produced and no record is
    processed; [make_reg_ex_mm] itself raises it for such counts.  For 0, 1
    and 2 mismatches the build never raises [NotImplementedError] (its only
    possible exception is a [KeyError] on a primer letter outside the IUPAC
    table) and, for primers over the IUPAC letters (any case), it succeeds
    with the primer count and a pattern set. *)
Theorem C8_mismatch_limit (rcf : str -> str) (primers : list str) (rc : bool) :
  (forall mm, (2 < mm)%Z ->
     build_matcher rcf primers mm rc = Err NotImplementedError /\
     forall (R : Type) step (records : list R),
       clip_main step rcf primers mm rc records = Err NotImplementedError) /\
  (forall seq m, 2 < m -> make_reg_ex_mm seq m = Err NotImplementedError) /\
  (forall mm e, (0 <= mm <= 2)%Z -> build_matcher rcf primers mm rc = Err e ->
     exists c, e = KeyError c) /\
  (forall mm, (0 <= mm <= 2)%Z ->
     Forall (fun p => Forall (fun c => iupac (upper_char c)) (if rc then rcf p else p))
       primers ->
     exists alts, build_matcher rcf primers mm rc = Ok (length primers, alts)).
Proof.
  split; [|split; [|split]].
  - intros mm H; unfold clip_main, build_matcher; rewrite check_mm_large by exact H.
    split; reflexivity.
  - intros seq m H; apply mrm_too_many, H.
  - intros mm e H Hb; unfold build_matcher in Hb.
    destruct (check_mm_small _ H) as [Hc Hle]; rewrite Hc in Hb; cbn [bind] in Hb.
    unfold load_primers_as_re in Hb.
    apply bind_Err in Hb as [Hb|(ps & _ & Hb)]; [|discriminate].
    apply mapM_Err in Hb as (p & _ & Hb).
    unfold make_reg_ex_mm in Hb; eapply mrm_Err; [| |exact Hb]; lia.
  - intros mm H Hp; unfold build_matcher.
    destruct (check_mm_small _ H) as [Hc Hle]; rewrite Hc; cbn [bind].
    unfold load_primers_as_re.
    match goal with |- context [mapM ?f primers] =>
      destruct (mapM_exists f primers) as [ps ->] end.
    + intros p Hin; apply mrm_ok; [lia | lia|].
      exact (proj1 (Forall_forall _ _) Hp p Hin).
    + cbn [bind]; eauto.
Qed.

Lemma C8_witness :
  (3 > 2)%Z /\ (0 <= 1 <= 2)%Z /\
  build_matcher (fun x => x) [S_ "CCGACTCGAG"] 3 false = Err NotImplementedError /\
  exists alts, build_matcher (fun x => x) [S_ "CCGACTCGAG"] 1 false = Ok (1, alts).
Proof.
  split; [lia|]. split; [lia|]. split.
  - apply (proj1 (proj1 (C8_mismatch_limit (fun x => x) [S_ "CCGACTCGAG"] false) 3%Z
                            ltac:(lia))).
  - apply (proj2 (proj2 (proj2 (C8_mismatch_limit (fun x => x) [S_ "CCGACTCGAG"] false)))
             1%Z ltac:(lia)).
    cbn; forall_acgt.
Defined.

(** * Further properties of the script *)

(** ** The record loops *)

Lemma run_out_Forall {R : Type} (step : counters -> R -> counters * option R)
  (P Q : R -> Prop) :
  (forall c r c' r', P r -> step c r = (c', Some r') -> Q r') ->
  forall rs c, Forall P rs -> Forall Q (snd (run step c rs)).
Proof.
  intros Hs rs; induction rs as [|r rs IH]; intros c Hp; cbn [run]; [constructor|].
  inversion Hp; subst.
  destruct (step c r) as [c1 o] eqn:E.
  specialize (IH c1 ltac:(assumption)).
  destruct (run step c1 rs) as [c2 out]; cbn in *.
  destruct o; [constructor; [eapply Hs; eauto | auto] | auto].
Qed.

Lemma run_count {R : Type} (step : counters -> R -> counters * option R)
  (w : counters -> nat) :
  (forall c r, w (fst (step c r)) =
               w c + match snd (step c r) with Some _ => 1 | None => 0 end) ->
  forall rs c, w (fst (run step c rs)) = w c + length (snd (run step c rs)).
Proof.
  intros Hs rs; induction rs as [|r rs IH]; intros c; cbn [run]; [cbn; lia|].
  specialize (Hs c r). destruct (step c r) as [c1 o]; cbn in Hs.
  specialize (IH c1). destruct (run step c1 rs) as [c2 out]; cbn in *.
  destruct o; cbn; lia.
Qed.

Ltac split_step :=
  cbv zeta;
  match goal with
  | |- context [match search ?a ?x with _ => _ end] =>
      destruct (search a x) as [[? ?]|]
  end;
  cbv beta iota;
  repeat match goal with
         | |- context [if ?b then _ else _] =>
             match type of b with bool => destruct b end
         end;
  cbn; lia.

Definition written (c : counters) : nat := clipped c + negs c.

Lemma fastq_fwd_written primer min_len keep c r :
  written (fst (fastq_step_fwd primer min_len keep c r)) =
  written c + match snd (fastq_step_fwd primer min_len keep c r) with
              | Some _ => 1 | None => 0 end.
Proof. unfold fastq_step_fwd, written; split_step. Qed.

Lemma fastq_rev_written primer min_len keep c r :
  written (fst (fastq_step_rev primer min_len keep c r)) =
  written c + match snd (fastq_step_rev primer min_len keep c r) with
              | Some _ => 1 | None => 0 end.
Proof. unfold fastq_step_rev, written; split_step. Qed.

Lemma fasta_fwd_written primer min_len keep c r :
  written (fst (fasta_step_fwd primer min_len keep c r)) =
  written c + match snd (fasta_step_fwd primer min_len keep c r) with
              | Some _ => 1 | None => 0 end.
Proof. unfold fasta_step_fwd, written; split_step. Qed.

Lemma fasta_rev_written primer min_len keep c r :
  written (fst (fasta_step_rev primer min_len keep c r)) =
  written c + match snd (fasta_step_rev primer min_len keep c r) with
              | Some _ => 1 | None => 0 end.
Proof. unfold fasta_step_rev, written; split_step. Qed.

Lemma sff_fwd_written primer min_len keep c r :
  written (fst (sff_step_fwd primer min_len keep c r)) =
  written c + match snd (sff_step_fwd primer min_len keep c r) with
              | Some _ => 1 | None => 0 end.
Proof. unfold sff_step_fwd, written; split_step. Qed.

Lemma sff_rev_written primer min_len keep c r :
  written (fst (sff_step_rev primer min_len keep c r)) =
  written c + match snd (sff_step_rev primer min_len keep c r) with
              | Some _ => 1 | None => 0 end.
Proof. unfold sff_step_rev, written; split_step. Qed.

Lemma match_at_bounds p x pos e :
  match_at p x pos = Some e -> pos <= length x -> pos <= e <= length x.
Proof.
  revert pos; induction p as [|t p IH]; intros pos H Hp; cbn in H.
  - inversion H; lia.
  - destruct t.
    + destruct (pos =? 0); [now apply IH | discriminate].
    + destruct (eol_at x pos); [now apply IH | discriminate].
    + destruct (nth_error x pos) eqn:E; [|discriminate].
      destruct (tok_char_ok _ a); [|discriminate].
      assert (pos < length x) by (apply nth_error_Some; congruence).
      specialize (IH (S pos) H ltac:(lia)); lia.
    + destruct (nth_error x pos) eqn:E; [|discriminate].
      destruct (tok_char_ok _ a); [|discriminate].
      assert (pos < length x) by (apply nth_error_Some; congruence).
      specialize (IH (S pos) H ltac:(lia)); lia.
    + destruct (nth_error x pos) eqn:E; [|discriminate].
      destruct (tok_char_ok _ a); [|discriminate].
      assert (pos < length x) by (apply nth_error_Some; congruence).
      specialize (IH (S pos) H ltac:(lia)); lia.
Qed.

Lemma search_bounds alts x s e : search alts x = Some (s, e) -> s <= e <= length x.
Proof.
  intros H; apply search_Some in H as [Hs (a & _ & Ha)].
  eapply match_at_bounds; eauto.
Qed.

Lemma length_sff_window r :
  length (sff_window r) =
  Nat.min (sff_clip_qual_right r - sff_clip_qual_left r)
          (length (sff_seq r) - sff_clip_qual_left r).
Proof. unfold sff_window, py_slice; now rewrite length_firstn, length_skipn. Qed.

Ltac split_hyp H :=
  cbv zeta in H;
  match type of H with
  | context [match search ?a ?x with _ => _ end] =>
      let Hs := fresh "Hs" in destruct (search a x) as [[?s ?e]|] eqn:Hs
  end;
  cbv beta iota in H;
  repeat match type of H with
         | context [if ?b then _ else _] =>
             match type of b with
             | bool => let Hb := fresh "Hb" in destruct b eqn:Hb
             end
         end;
  inversion H; subst; clear H;
  repeat match goal with Hb : (_ <=? _) = true |- _ => apply Nat.leb_le in Hb end;
  repeat match goal with
         | Hs : search _ _ = Some _ |- _ => apply search_bounds in Hs
         end.

(** Per-record facts about an emitted record. *)
Lemma fastq_fwd_emit_len primer min_len keep c r c' r' :
  fastq_step_fwd primer min_len keep c r = (c', Some r') ->
  min_len <= length (fq_sequence r') /\
  (length (fq_quality r) = length (fq_sequence r) ->
   length (fq_quality r') = length (fq_sequence r')).
Proof.
  unfold fastq_step_fwd; intros H; split_hyp H; cbn in *; unfold fastq_len in *; split; auto.
  rewrite !length_skipn, length_upper; lia.
Qed.

Lemma fastq_rev_emit_len primer min_len keep c r c' r' :
  fastq_step_rev primer min_len keep c r = (c', Some r') ->
  min_len <= length (fq_sequence r') /\
  (length (fq_quality r) = length (fq_sequence r) ->
   length (fq_quality r') = length (fq_sequence r')).
Proof.
  unfold fastq_step_rev; intros H; split_hyp H; cbn in *; unfold fastq_len in *; split; auto.
  rewrite !length_firstn, length_upper; lia.
Qed.

Lemma fasta_fwd_emit_len primer min_len keep c r c' r' :
  fasta_step_fwd primer min_len keep c r = (c', Some r') ->
  min_len <= length (fa_sequence r').
Proof.
  unfold fasta_step_fwd; intros H; split_hyp H; cbn in *; unfold fasta_len in *; auto.
Qed.

Lemma fasta_rev_emit_len primer min_len keep c r c' r' :
  fasta_step_rev primer min_len keep c r = (c', Some r') ->
  min_len <= length (fa_sequence r').
Proof.
  unfold fasta_step_rev; intros H; split_hyp H; cbn in *; unfold fasta_len in *; auto.
Qed.

Lemma sff_fwd_emit primer min_len keep c r c' r' :
  sff_step_fwd primer min_len keep c r = (c', Some r') ->
  min_len <= length (sff_window r') /\
  (sff_clip_qual_left r <= sff_clip_qual_right r ->
   sff_clip_qual_left r <= sff_clip_qual_left r' /\
   sff_clip_qual_left r' <= sff_clip_qual_right r' /\
   sff_clip_qual_right r' <= sff_clip_qual_right r).
Proof.
  unfold sff_step_fwd; intros H; split_hyp H.
  - rewrite length_upper in *.
    rewrite sff_window_set_left, length_skipn.
    pose proof (length_sff_window r). cbn; split; [lia|]. intros; lia.
  - rewrite length_upper in *; split; [lia | intros; lia].
Qed.

Lemma sff_rev_emit primer min_len keep c r c' r' :
  sff_step_rev primer min_len keep c r = (c', Some r') ->
  min_len <= length (sff_window r') /\
  (sff_clip_qual_left r <= sff_clip_qual_right r ->
   sff_clip_qual_left r <= sff_clip_qual_left r' /\
   sff_clip_qual_left r' <= sff_clip_qual_right r' /\
   sff_clip_qual_right r' <= sff_clip_qual_right r).
Proof.
  unfold sff_step_rev; intros H; split_hyp H.
  - rewrite length_upper in *.
    rewrite sff_window_set_right, length_firstn by lia.
    pose proof (length_sff_window r). cbn; split; [lia|]. intros; lia.
  - rewrite length_upper in *; split; [lia | intros; lia].
Qed.

(** With [min_len = 0] and keep-unmatched on, every loop body emits. *)
Ltac emits_all :=
  intros ? ?; cbv zeta;
  match goal with
  | |- context [match search ?a ?x with _ => _ end] =>
      destruct (search a x) as [[? ?]|]
  end; cbn; eauto.

Lemma run_all_emitted {R : Type} (step : counters -> R -> counters * option R) :
  (forall c r, exists c' r', step c r = (c', Some r')) ->
  forall rs c, length (snd (run step c rs)) = length rs.
Proof.
  intros Hs rs; induction rs as [|r rs IH]; intros c; cbn [run]; [reflexivity|].
  destruct (Hs c r) as (c1 & r1 & ->). specialize (IH c1).
  destruct (run step c1 rs) as [c2 out]; cbn in *; lia.
Qed.

(** The number of records a loop writes is the increase of [clipped] plus
    [negs]: a record is written exactly when one of those two is
    incremented.  For every format and orientation. *)
Theorem run_written_count (primer : list pat) (min_len : nat) (keep : bool)
  (c : counters) :
  (forall rs, let (c', out) := run (fastq_step_fwd primer min_len keep) c rs in
     clipped c' + negs c' = clipped c + negs c + length out) /\
  (forall rs, let (c', out) := run (fastq_step_rev primer min_len keep) c rs in
     clipped c' + negs c' = clipped c + negs c + length out) /\
  (forall rs, let (c', out) := run (fasta_step_fwd primer min_len keep) c rs in
     clipped c' + negs c' = clipped c + negs c + length out) /\
  (forall rs, let (c', out) := run (fasta_step_rev primer min_len keep) c rs in
     clipped c' + negs c' = clipped c + negs c + length out) /\
  (forall rs, let (c', out) := run (sff_step_fwd primer min_len keep) c rs in
     clipped c' + negs c' = clipped c + negs c + length out) /\
  (forall rs, let (c', out) := run (sff_step_rev primer min_len keep) c rs in
     clipped c' + negs c' = clipped c + negs c + length out).
Proof.
  split; [|split; [|split; [|split; [|split]]]]; intros rs;
    match goal with |- let (_, _) := run ?st c rs in _ =>
      let H := fresh in
      assert (H : forall c r, written (fst (st c r)) =
                              written c + match snd (st c r) with
                                          | Some _ => 1 | None => 0 end)
        by (intros; first [apply fastq_fwd_written | apply fastq_rev_written
                          | apply fasta_fwd_written | apply fasta_rev_written
                          | apply sff_fwd_written | apply sff_rev_written]);
      pose proof (run_count st written H rs c) as Hc;
      destruct (run st c rs); unfold written in Hc; exact Hc
    end.
Qed.

(** Every record a loop writes, clipped or unmatched, has at least
    [min_len] bases (for SFF: in its clip window). *)
Theorem written_records_min_len (primer : list pat) (min_len : nat) (keep : bool)
  (c : counters) :
  (forall rs, Forall (fun r => min_len <= length (fq_sequence r))
                (snd (run (fastq_step_fwd primer min_len keep) c rs))) /\
  (forall rs, Forall (fun r => min_len <= length (fq_sequence r))
                (snd (run (fastq_step_rev primer min_len keep) c rs))) /\
  (forall rs, Forall (fun r => min_len <= length (fa_sequence r))
                (snd (run (fasta_step_fwd primer min_len keep) c rs))) /\
  (forall rs, Forall (fun r => min_len <= length (fa_sequence r))
                (snd (run (fasta_step_rev primer min_len keep) c rs))) /\
  (forall rs, Forall (fun r => min_len <= length (sff_window r))
                (snd (run (sff_step_fwd primer min_len keep) c rs))) /\
  (forall rs, Forall (fun r => min_len <= length (sff_window r))
                (snd (run (sff_step_rev primer min_len keep) c rs))).
Proof.
  split; [|split; [|split; [|split; [|split]]]]; intros rs;
    (apply run_out_Forall with (P := fun _ => True);
     [intros c0 r c' r' _ H | apply Forall_forall; auto]).
  - apply (fastq_fwd_emit_len _ _ _ _ _ _ _ H).
  - apply (fastq_rev_emit_len _ _ _ _ _ _ _ H).
  - apply (fasta_fwd_emit_len _ _ _ _ _ _ _ H).
  - apply (fasta_rev_emit_len _ _ _ _ _ _ _ H).
  - apply (sff_fwd_emit _ _ _ _ _ _ _ H).
  - apply (sff_rev_emit _ _ _ _ _ _ _ H).
Qed.

(** FASTQ: the quality string is cut at the same place as the sequence, so
    input records whose quality is as long as their sequence give written
    records with the same property, in both orientations. *)
Theorem fastq_quality_stays_aligned (primer : list pat) (min_len : nat)
  (keep : bool) (c : counters) (rs : list fastq_read) :
  Forall (fun r => length (fq_quality r) = length (fq_sequence r)) rs ->
  Forall (fun r => length (fq_quality r) = length (fq_sequence r))
    (snd (run (fastq_step_fwd primer min_len keep) c rs)) /\
  Forall (fun r => length (fq_quality r) = length (fq_sequence r))
    (snd (run (fastq_step_rev primer min_len keep) c rs)).
Proof.
  intros Hrs; split; (eapply run_out_Forall; [|exact Hrs]); intros c0 r c' r' Hr H.
  - now apply (fastq_fwd_emit_len _ _ _ _ _ _ _ H).
  - now apply (fastq_rev_emit_len _ _ _ _ _ _ _ H).
Qed.

Lemma fastq_quality_stays_aligned_witness :
  Forall (fun r => length (fq_quality r) = length (fq_sequence r))
    [mk_fastq (S_ "r1") (S_ "ttACGTaa") (S_ "IIIIIIII")] /\
  Forall (fun r => length (fq_quality r) = length (fq_sequence r))
    (snd (run (fastq_step_fwd [map TLit (S_ "ACGT")] 1 false) counters0
            [mk_fastq (S_ "r1") (S_ "ttACGTaa") (S_ "IIIIIIII")])).
Proof.
  split; [repeat constructor|].
  apply (proj1 (fastq_quality_stays_aligned [map TLit (S_ "ACGT")] 1 false counters0
                  [mk_fastq (S_ "r1") (S_ "ttACGTaa") (S_ "IIIIIIII")]
                  ltac:(repeat constructor))).
Defined.

(** With [min_len = 0] and keep-unmatched on, every record is written
    (clipped or unchanged): the output has as many records as the input. *)
Theorem min_len_zero_keep_writes_all (primer : list pat) (c : counters) :
  (forall rs, length (snd (run (fastq_step_fwd primer 0 true) c rs)) = length rs) /\
  (forall rs, length (snd (run (fastq_step_rev primer 0 true) c rs)) = length rs) /\
  (forall rs, length (snd (run (fasta_step_fwd primer 0 true) c rs)) = length rs) /\
  (forall rs, length (snd (run (fasta_step_rev primer 0 true) c rs)) = length rs) /\
  (forall rs, length (snd (run (sff_step_fwd primer 0 true) c rs)) = length rs) /\
  (forall rs, length (snd (run (sff_step_rev primer 0 true) c rs)) = length rs).
Proof.
  split; [|split; [|split; [|split; [|split]]]]; intros rs; apply run_all_emitted.
  - unfold fastq_step_fwd; emits_all.
  - unfold fastq_step_rev; emits_all.
  - unfold fasta_step_fwd; emits_all.
  - unfold fasta_step_rev; emits_all.
  - unfold sff_step_fwd; emits_all.
  - unfold sff_step_rev; emits_all.
Qed.

(** SFF: a written record's clip window lies inside the input record's
    window ([left <= left' <= right' <= right]) when the input window is
    well formed ([left <= right]); forward moves only the left clip and
    reverse only the right clip. *)
Theorem sff_clip_window_nested (primer : list pat) (min_len : nat) (keep : bool)
  (c c' : counters) (r r' : sff_read) :
  sff_clip_qual_left r <= sff_clip_qual_right r ->
  (sff_step_fwd primer min_len keep c r = (c', Some r') ->
   sff_clip_qual_left r <= sff_clip_qual_left r' /\
   sff_clip_qual_left r' <= sff_clip_qual_right r' /\
   sff_clip_qual_right r' = sff_clip_qual_right r) /\
  (sff_step_rev primer min_len keep c r = (c', Some r') ->
   sff_clip_qual_left r' = sff_clip_qual_left r /\
   sff_clip_qual_left r' <= sff_clip_qual_right r' /\
   sff_clip_qual_right r' <= sff_clip_qual_right r).
Proof.
  intros Hlr; split; intros H.
  - pose proof (sff_fwd_emit _ _ _ _ _ _ _ H) as [_ Hn]; specialize (Hn Hlr).
    unfold sff_step_fwd in H; split_hyp H; cbn in *; lia.
  - pose proof (sff_rev_emit _ _ _ _ _ _ _ H) as [_ Hn]; specialize (Hn Hlr).
    unfold sff_step_rev in H; split_hyp H; cbn in *; lia.
Qed.

Lemma sff_clip_window_nested_witness :
  let r := mk_sff (S_ "s1") (S_ "TCAGACGTAAAA") [] 2 10 [] in
  let r' := mk_sff (S_ "s1") (S_ "TCAGACGTAAAA") [] 8 10 [] in
  sff_clip_qual_left r <= sff_clip_qual_right r /\
  (sff_clip_qual_left r <= sff_clip_qual_left r' /\
   sff_clip_qual_left r' <= sff_clip_qual_right r' /\
   sff_clip_qual_right r' = sff_clip_qual_right r).
Proof.
  intros r r'; split; [cbn; lia|].
  apply (proj1 (sff_clip_window_nested [map TLit (S_ "ACGT")] 0 false counters0
                  (incr_clipped counters0) r r' ltac:(cbn; lia))).
  vm_compute; reflexivity.
Defined.

(** ** The ambiguity table and [make_reg_ex] *)

Lemma mapM_Forall2 {A B} (f : A -> res B) l ys :
  mapM f l = Ok ys -> Forall2 (fun x y => f x = Ok y) l ys.
Proof.
  revert ys; induction l as [|x l IH]; intros ys H; cbn in H.
  - inversion H; constructor.
  - destruct (f x) eqn:Ef; [|discriminate]; cbn in H.
    destruct (mapM f l) eqn:Em; [|discriminate]; cbn in H.
    inversion H; subst; constructor; auto.
Qed.

Lemma Forall2_In_r {A B} (R : A -> B -> Prop) l1 l2 y :
  Forall2 R l1 l2 -> In y l2 -> exists x, In x l1 /\ R x y.
Proof.
  induction 1 as [|x y' l1 l2 Hr _ IH]; intros Hy; [destruct Hy|].
  destruct Hy as [<-|Hy]; [exists x; cbn; auto|].
  destruct (IH Hy) as (x' & ? & ?); exists x'; cbn; auto.
Qed.

Lemma Forall2_In_l {A B} (R : A -> B -> Prop) l1 l2 x :
  Forall2 R l1 l2 -> In x l1 -> exists y, In y l2 /\ R x y.
Proof.
  induction 1 as [|x' y l1 l2 Hr _ IH]; intros Hx; [destruct Hx|].
  destruct Hx as [<-|Hx]; [exists y; cbn; auto|].
  destruct (IH Hx) as (y' & ? & ?); exists y'; cbn; auto.
Qed.

Lemma assoc_In k l v : assoc k l = Some v -> In (k, v) l.
Proof.
  induction l as [|[k' v'] l IH]; cbn; [discriminate|].
  destruct (Ascii.eqb k k') eqn:E; intros H; [|right; auto].
  apply Ascii.eqb_eq in E; inversion H; subst; now left.
Qed.

(** What [ambiguous_dna_re[letter]] gives for a key of the table: an atom
    that consumes one character, accepts the letter itself and never
    accepts a newline. *)
Lemma ambiguous_dna_re_Ok c t :
  ambiguous_dna_re c = Ok t ->
  iupac c /\ anchor_free t = true /\ tok_char_ok t newline = false /\
  tok_char_ok t c = true.
Proof.
  unfold ambiguous_dna_re; destruct (assoc c ambiguous_dna_values) as [v|] eqn:E;
    intros H; inversion H; subst; clear H.
  apply assoc_In in E.
  repeat (destruct E as [E|E]; [inversion E; subst; vm_compute; intuition in_list|]).
  destruct E.
Qed.

Lemma ambiguous_dna_re_not_iupac c : ~ iupac c -> ambiguous_dna_re c = Err (KeyError c).
Proof.
  intros Hc; unfold ambiguous_dna_re.
  destruct (assoc c ambiguous_dna_values) as [v|] eqn:E; [|reflexivity].
  exfalso; apply Hc; apply assoc_In in E.
  repeat (destruct E as [E|E]; [inversion E; subst; cbn; in_list|]); destruct E.
Qed.

Lemma make_reg_ex_Ok w p :
  make_reg_ex w = Ok p ->
  length p = length w /\ Forall iupac w /\
  Forall (fun t => anchor_free t = true /\ tok_char_ok t newline = false) p /\
  plain_ok p w = true.
Proof.
  intros H; apply mapM_Forall2 in H.
  induction H as [|c t w p Hc _ IH]; cbn; [repeat split; auto|].
  apply ambiguous_dna_re_Ok in Hc as (Hi & Ha & Hn & Hs).
  destruct IH as (Hl & Hw & Hp & Ho).
  rewrite Hs, Ho; repeat split; auto.
Qed.

Lemma plain_ok_prefix p l1 l2 : plain_ok p l1 = true -> plain_ok p (l1 ++ l2) = true.
Proof.
  revert l1; induction p as [|t p IH]; intros [|c l1] H; cbn in *; auto; [discriminate|].
  apply andb_prop in H as [H1 H2]; now rewrite H1, IH.
Qed.

Lemma make_reg_ex_match w p x pos :
  make_reg_ex w = Ok p -> firstn (length w) (skipn pos x) = w ->
  match_at p x pos = Some (pos + length w).
Proof.
  intros H Hx; pose proof (make_reg_ex_Ok _ _ H) as (Hl & _ & Hp & Ho).
  rewrite match_at_plain.
  - rewrite <- (firstn_skipn (length w) (skipn pos x)), Hx.
    rewrite plain_ok_prefix, Hl by exact Ho; reflexivity.
  - apply forallb_forall; intros t Ht; now apply (proj1 (Forall_forall _ _) Hp t Ht).
Qed.

(** [make_reg_ex] on a string over the table's keys gives one atom per
    letter; each atom consumes one character, none is an anchor, none
    accepts a newline, and the pattern matches the string it was built
    from. *)
Theorem make_reg_ex_pattern (w : str) (p : pat) :
  make_reg_ex w = Ok p ->
  length p = length w /\
  Forall (fun t => anchor_free t = true /\ tok_char_ok t newline = false) p /\
  (forall x pos, firstn (length w) (skipn pos x) = w -> match_at p x pos = Some (pos + length w)).
Proof.
  intros H; pose proof (make_reg_ex_Ok _ _ H) as (Hl & _ & Hp & _).
  split; [exact Hl|]; split; [exact Hp|].
  intros x pos Hx; now apply (make_reg_ex_match w).
Qed.

Lemma make_reg_ex_pattern_witness :
  make_reg_ex (S_ "ACNM") = Ok [TLit "A"%char; TLit "C"%char; TAny; TCls (S_ "ACM")] /\
  match_at [TLit "A"%char; TLit "C"%char; TAny; TCls (S_ "ACM")] (S_ "GGACNMT") 2 =
  Some (2 + length (S_ "ACNM")).
Proof.
  split; [reflexivity|].
  apply (make_reg_ex_pattern (S_ "ACNM") _ eq_refl); reflexivity.
Defined.

(** [make_reg_ex] succeeds exactly on strings over the sixteen keys of
    [ambiguous_dna_values] (upper case); otherwise it raises [KeyError] on
    the first letter that is not a key. *)
Theorem make_reg_ex_key_error :
  (forall w, (exists p, make_reg_ex w = Ok p) <-> Forall iupac w) /\
  (forall u c v, Forall iupac u -> ~ iupac c ->
     make_reg_ex (u ++ c :: v) = Err (KeyError c)).
Proof.
  split.
  - intros w; split.
    + intros (p & H); now apply make_reg_ex_Ok in H.
    + apply make_reg_ex_iupac.
  - intros u c v Hu Hc; unfold make_reg_ex.
    induction Hu as [|x u Hx _ IH]; cbn.
    + now rewrite ambiguous_dna_re_not_iupac.
    + destruct (ambiguous_dna_re_iupac x Hx) as [t ->]; cbn.
      now rewrite IH.
Qed.

Lemma make_reg_ex_key_error_witness :
  Forall iupac (S_ "AC") /\ ~ iupac "U"%char /\
  make_reg_ex (S_ "AC" ++ "U"%char :: S_ "G") = Err (KeyError "U"%char).
Proof.
  assert (Hu : Forall iupac (S_ "AC")) by (cbn; repeat constructor; cbn; in_list).
  assert (Hc : ~ iupac "U"%char)
    by (cbn; intros H; repeat (destruct H as [H|H]; [discriminate|]); destruct H).
  split; [exact Hu|]; split; [exact Hc|].
  apply (proj2 make_reg_ex_key_error); assumption.
Defined.

(** ** The patterns of [make_reg_ex_mm] *)

(** Which patterns a successful [make_reg_ex_mm] call yields. *)
Lemma mrm_In fuel seq mm l p :
  mrm (S fuel) seq mm = Ok l ->
  In p l <->
  make_reg_ex (upper seq) = Ok p \/
  (exists i A p', 1 <= i <= mm /\ mrm fuel (skipn i (upper seq)) (mm - i) = Ok A /\
     In p' A /\ p = TBol :: p') \/
  (exists i B p', 1 <= i <= mm /\
     mrm fuel (firstn (length (upper seq) - i) (upper seq)) (mm - i) = Ok B /\
     In p' B /\ p = TEol :: p') \/
  (1 <= mm /\ exists s, In s (single_n (upper seq)) /\ make_reg_ex s = Ok p) \/
  (2 <= mm /\ exists s, In s (double_n (upper seq)) /\ make_reg_ex s = Ok p).
Proof.
  intros H; rewrite mrm_S in H.
  destruct (2 <? mm) eqn:Emm; [discriminate|]; apply Nat.ltb_ge in Emm.
  destruct (make_reg_ex (upper seq)) as [r0|] eqn:E0; [|discriminate]; cbn [bind] in H.
  match type of H with context [mapM ?f (List.seq 1 mm)] =>
    destruct (mapM f (List.seq 1 mm)) as [trunc|] eqn:Et; [|discriminate];
    apply mapM_Forall2 in Et; set (g := f) in Et end.
  cbn [bind] in H.
  destruct (if 1 <=? mm then _ else _) as [ones|] eqn:Eo; [|discriminate]; cbn [bind] in H.
  destruct (if 2 <=? mm then _ else _) as [twos|] eqn:Ew; [|discriminate]; cbn [bind] in H.
  inversion H; subst l; clear H.
  assert (Hg : forall i T, g i = Ok T ->
            exists A B, mrm fuel (skipn i (upper seq)) (mm - i) = Ok A /\
              mrm fuel (firstn (length (upper seq) - i) (upper seq)) (mm - i) = Ok B /\
              T = map (cons TBol) A ++ map (cons TEol) B).
  { intros i T Hi; unfold g in Hi; cbv beta in Hi.
    destruct (mrm fuel (skipn i (upper seq)) (mm - i)) as [A|]; [|discriminate].
    cbn [bind] in Hi.
    destruct (mrm fuel (firstn (length (upper seq) - i) (upper seq)) (mm - i)) as [B|];
      [|discriminate].
    cbn [bind] in Hi; inversion Hi; eauto. }
  cbn [In]; rewrite !in_app_iff, in_concat; split.
  - intros [Hp|[(T & HT & Hp)|[Hp|Hp]]].
    + left; congruence.
    + destruct (Forall2_In_r _ _ _ _ Et HT) as (i & Hi & Hgi).
      apply in_seq in Hi.
      destruct (Hg _ _ Hgi) as (A & B & HA & HB & ->).
      apply in_app_iff in Hp as [Hp|Hp]; apply in_map_iff in Hp as (p' & <- & Hp').
      * right; left; exists i, A, p'; repeat split; auto; lia.
      * right; right; left; exists i, B, p'; repeat split; auto; lia.
    + destruct (1 <=? mm) eqn:E1; [|inversion Eo; subst; destruct Hp].
      apply Nat.leb_le in E1; apply mapM_Forall2 in Eo.
      destruct (Forall2_In_r _ _ _ _ Eo Hp) as (s & Hs & Hm).
      right; right; right; left; split; eauto.
    + destruct (2 <=? mm) eqn:E2; [|inversion Ew; subst; destruct Hp].
      apply Nat.leb_le in E2; apply mapM_Forall2 in Ew.
      destruct (Forall2_In_r _ _ _ _ Ew Hp) as (s & Hs & Hm).
      right; right; right; right; split; eauto.
  - intros [Hp|[(i & A & p' & Hi & HA & Hp' & ->)|
               [(i & B & p' & Hi & HB & Hp' & ->)|[(H1 & s & Hs & Hm)|(H2 & s & Hs & Hm)]]]].
    + left; congruence.
    + right; left.
      destruct (Forall2_In_l _ _ _ _ Et (proj2 (in_seq mm 1 i) ltac:(lia)))
        as (T & HT & Hgi).
      destruct (Hg _ _ Hgi) as (A' & B & HA' & HB & ->).
      rewrite HA in HA'; inversion HA'; subst A'.
      exists (map (cons TBol) A ++ map (cons TEol) B); split; auto.
      apply in_app_iff; left; now apply in_map.
    + right; left.
      destruct (Forall2_In_l _ _ _ _ Et (proj2 (in_seq mm 1 i) ltac:(lia)))
        as (T & HT & Hgi).
      destruct (Hg _ _ Hgi) as (A & B' & HA & HB' & ->).
      rewrite HB in HB'; inversion HB'; subst B'.
      exists (map (cons TBol) A ++ map (cons TEol) B); split; auto.
      apply in_app_iff; right; now apply in_map.
    + right; right; left.
      replace (1 <=? mm) with true in Eo by (symmetry; now apply Nat.leb_le).
      apply mapM_Forall2 in Eo.
      destruct (Forall2_In_l _ _ _ _ Eo Hs) as (y & Hy & Hmy); congruence.
    + right; right; right.
      replace (2 <=? mm) with true in Ew by (symmetry; now apply Nat.leb_le).
      apply mapM_Forall2 in Ew.
      destruct (Forall2_In_l _ _ _ _ Ew Hs) as (y & Hy & Hmy); congruence.
Qed.

Lemma In_single_n u s :
  In s (single_n u) -> exists j, j < length u /\ s = n_at u j.
Proof.
  unfold single_n; intros H; apply in_map_iff in H as (j & <- & Hj).
  apply in_seq in Hj; exists j; split; [lia | reflexivity].
Qed.

Lemma In_double_n u s :
  In s (double_n u) ->
  exists i k, i < length u /\ k < length (skipn (S i) u) /\ s = nn_at u i k.
Proof.
  unfold double_n; intros H; apply in_flat_map in H as (i & Hi & H).
  apply in_map_iff in H as (k & <- & Hk).
  apply in_seq in Hi; apply in_seq in Hk.
  exists i, k; repeat split; lia.
Qed.

Lemma length_n_at u j : j < length u -> length (n_at u j) = length u.
Proof.
  intros Hj; unfold n_at; rewrite length_app, length_firstn; cbn [length].
  rewrite length_skipn; lia.
Qed.

Lemma length_nn_at u i k :
  i < length u -> k < length (skipn (S i) u) -> length (nn_at u i k) = length u.
Proof.
  intros Hi Hk; rewrite length_skipn in Hk; unfold nn_at.
  rewrite length_app, length_firstn; cbn [length].
  rewrite length_app, length_firstn, length_skipn; cbn [length].
  rewrite length_skipn; lia.
Qed.

(** Every pattern of [make_reg_ex_mm seq mm] is a run of anchors ([^] or
    [$]) followed by an anchor-free body that never accepts a newline; the
    body stands for the primer with [t] bases removed, [t] at most [mm]
    and at least the number of anchors, and a pattern without anchors is
    for the whole primer. *)
Lemma mrm_shape fuel : forall seq mm l p, mrm fuel seq mm = Ok l -> In p l ->
  exists a b t, p = a ++ b /\ Forall (fun x => x = TBol \/ x = TEol) a /\
    Forall (fun x => anchor_free x = true /\ tok_char_ok x newline = false) b /\
    length a <= t <= mm /\ length b = length seq - t /\ (a = [] -> t = 0).
Proof.
  induction fuel as [|fuel IH]; intros seq mm l p H Hp.
  { revert H; unfold mrm; destruct (2 <? mm); discriminate. }
  assert (Hmm : mm <= 2) by (rewrite mrm_S in H; destruct (2 <? mm) eqn:E;
                             [discriminate | now apply Nat.ltb_ge in E]).
  apply (mrm_In _ _ _ _ p H) in Hp.
  destruct Hp as [Hp|[(i & A & p' & Hi & HA & Hp' & ->)|
                  [(i & B & p' & Hi & HB & Hp' & ->)|[(H1 & s & Hs & Hm)|(H2 & s & Hs & Hm)]]]].
  - apply make_reg_ex_Ok in Hp as (Hl & _ & Hb & _).
    exists [], p, 0; rewrite length_upper in Hl; repeat split; auto; lia.
  - destruct (IH _ _ _ _ HA Hp') as (a & b & t & -> & Ha & Hb & Ht & Hl & H0).
    rewrite length_skipn, length_upper in Hl.
    exists (TBol :: a), b, (i + t); split; [reflexivity|].
    split; [constructor; auto|]. split; [exact Hb|].
    cbn [length]; split; [lia|]. split; [lia | discriminate].
  - destruct (IH _ _ _ _ HB Hp') as (a & b & t & -> & Ha & Hb & Ht & Hl & H0).
    rewrite length_firstn, length_upper in Hl.
    exists (TEol :: a), b, (i + t); split; [reflexivity|].
    split; [constructor; auto|]. split; [exact Hb|].
    cbn [length]; split; [lia|]. split; [lia | discriminate].
  - apply In_single_n in Hs as (j & Hj & ->).
    apply make_reg_ex_Ok in Hm as (Hl & _ & Hb & _).
    rewrite length_n_at, length_upper in Hl by exact Hj.
    exists [], p, 0; repeat split; auto; lia.
  - apply In_double_n in Hs as (i & k & Hi & Hk & ->).
    apply make_reg_ex_Ok in Hm as (Hl & _ & Hb & _).
    rewrite length_nn_at, length_upper in Hl by assumption.
    exists [], p, 0; repeat split; auto; lia.
Qed.

Lemma match_at_anchors a b x pos e :
  Forall (fun t => t = TBol \/ t = TEol) a ->
  match_at (a ++ b) x pos = Some e ->
  match_at b x pos = Some e /\ (In TBol a -> pos = 0) /\ (In TEol a -> eol_at x pos = true).
Proof.
  induction 1 as [|t a Ht _ IH]; cbn [app]; intros H.
  - repeat split; auto; intros [].
  - destruct Ht as [->| ->]; cbn [match_at] in H.
    + destruct (pos =? 0) eqn:E; [|discriminate].
      apply Nat.eqb_eq in E; destruct (IH H) as (Hb & H1 & H2).
      repeat split; auto; intros [Ht|Ht]; [discriminate | auto].
    + destruct (eol_at x pos) eqn:E; [|discriminate].
      destruct (IH H) as (Hb & H1 & H2).
      repeat split; auto; intros [Ht|Ht]; [discriminate | auto].
Qed.

Lemma match_at_body_after_eol b x pos :
  b <> [] ->
  Forall (fun t => anchor_free t = true /\ tok_char_ok t newline = false) b ->
  eol_at x pos = true -> match_at b x pos = None.
Proof.
  intros Hne Hb He; destruct b as [|t b]; [congruence|].
  inversion Hb as [|? ? [Ha Hn] _]; subst.
  rewrite match_at_char by exact Ha.
  unfold eol_at in He; apply orb_prop in He as [He|He].
  - apply Nat.eqb_eq in He; subst pos.
    replace (nth_error x (length x)) with (@None ascii)
      by (symmetry; apply nth_error_None; lia); reflexivity.
  - apply andb_prop in He as [_ He].
    destruct (nth_error x pos) as [c|]; [|reflexivity].
    apply Ascii.eqb_eq in He; subst c; now rewrite Hn.
Qed.

Lemma In_anchor_body (t : tok) a b :
  anchor_free t = false ->
  Forall (fun x => anchor_free x = true /\ tok_char_ok x newline = false) b ->
  In t (a ++ b) -> In t a.
Proof.
  intros Ht Hb H; apply in_app_iff in H as [H|H]; auto.
  apply (proj1 (Forall_forall _ _) Hb) in H as [H _]; congruence.
Qed.

(** [make_reg_ex_mm] calls on the same primer yield nested pattern lists
    as the mismatch count grows. *)
Lemma mrm_head fuel seq mm l :
  mrm (S fuel) seq mm = Ok l -> exists r0, make_reg_ex (upper seq) = Ok r0.
Proof.
  rewrite mrm_S; destruct (2 <? mm); [discriminate|].
  destruct (make_reg_ex (upper seq)); [eauto | discriminate].
Qed.

Lemma mrm_iupac fuel seq mm l :
  mrm (S fuel) seq mm = Ok l -> Forall (fun c => iupac (upper_char c)) seq.
Proof.
  intros H; apply mrm_head in H as [r0 H].
  apply make_reg_ex_Ok in H as (_ & H & _).
  unfold upper in H; rewrite Forall_map in H; exact H.
Qed.

Lemma mrm_le fuel : forall fuel' seq m m' l l',
  m <= m' -> m' <= 2 -> m < S fuel -> m' < S fuel' ->
  mrm (S fuel) seq m = Ok l -> mrm (S fuel') seq m' = Ok l' -> incl l l'.
Proof.
  induction fuel as [|fuel IH]; intros fuel' seq m m' l l' Hm Hm2 Hf Hf' H H' p Hp;
    pose proof (mrm_iupac _ _ _ _ H) as Hs;
    pose proof (Forall_upper_iupac' _ Hs) as Hu;
    apply (mrm_In _ _ _ _ p H) in Hp; apply (mrm_In _ _ _ _ p H');
    destruct Hp as [Hp|[(i & A & p' & Hi & HA & Hp' & ->)|
                    [(i & B & p' & Hi & HB & Hp' & ->)|[(H1 & s & Hs1 & Hm1)|(H2 & s & Hs1 & Hm1)]]]].
  - now left.
  - lia.
  - lia.
  - right; right; right; left; split; [lia | exists s; auto].
  - right; right; right; right; split; [lia | exists s; auto].
  - now left.
  - destruct fuel' as [|fuel']; [lia|].
    destruct (mrm_ok (S fuel') (skipn i (upper seq)) (m' - i)) as [A' HA'];
      [lia | lia | now apply Forall_skipn_str|].
    right; left; exists i, A', p'; split; [lia|]; split; [exact HA'|]; split; [|reflexivity].
    eapply (IH fuel' _ (m - i) (m' - i)); eauto; lia.
  - destruct fuel' as [|fuel']; [lia|].
    destruct (mrm_ok (S fuel') (firstn (length (upper seq) - i) (upper seq)) (m' - i))
      as [B' HB']; [lia | lia | now apply Forall_firstn_str|].
    right; right; left; exists i, B', p'; split; [lia|]; split; [exact HB'|];
      split; [|reflexivity].
    eapply (IH fuel' _ (m - i) (m' - i)); eauto; lia.
  - right; right; right; left; split; [lia | exists s; auto].
  - right; right; right; right; split; [lia | exists s; auto].
Qed.

(** Every pattern [make_reg_ex_mm seq mm] yields is a run of anchors ([^]
    or [$]) followed by an anchor-free body that never accepts a newline;
    the body covers the primer with [t] bases removed, where [t] is at most
    [mm] and at least the number of anchors, and a pattern without anchors
    covers the whole primer. *)
Theorem make_reg_ex_mm_shape (seq : str) (mm : nat) (l : list pat) (p : pat) :
  make_reg_ex_mm seq mm = Ok l -> In p l ->
  exists a b t, p = a ++ b /\ Forall (fun x => x = TBol \/ x = TEol) a /\
    Forall (fun x => anchor_free x = true /\ tok_char_ok x newline = false) b /\
    length a <= t <= mm /\ length b = length seq - t /\ (a = [] -> t = 0).
Proof. apply mrm_shape. Qed.

Lemma make_reg_ex_mm_shape_witness :
  make_reg_ex_mm (S_ "ACG") 1 =
    Ok [map TLit (S_ "ACG"); TBol :: map TLit (S_ "CG"); TEol :: map TLit (S_ "AC");
        [TAny; TLit "C"%char; TLit "G"%char]; [TLit "A"%char; TAny; TLit "G"%char];
        [TLit "A"%char; TLit "C"%char; TAny]] /\
  In (TBol :: map TLit (S_ "CG"))
    [map TLit (S_ "ACG"); TBol :: map TLit (S_ "CG"); TEol :: map TLit (S_ "AC");
     [TAny; TLit "C"%char; TLit "G"%char]; [TLit "A"%char; TAny; TLit "G"%char];
     [TLit "A"%char; TLit "C"%char; TAny]] /\
  exists a b t, TBol :: map TLit (S_ "CG") = a ++ b /\
    Forall (fun x => x = TBol \/ x = TEol) a /\
    Forall (fun x => anchor_free x = true /\ tok_char_ok x newline = false) b /\
    length a <= t <= 1 /\ length b = length (S_ "ACG") - t /\ (a = [] -> t = 0).
Proof.
  assert (H : make_reg_ex_mm (S_ "ACG") 1 =
    Ok [map TLit (S_ "ACG"); TBol :: map TLit (S_ "CG"); TEol :: map TLit (S_ "AC");
        [TAny; TLit "C"%char; TLit "G"%char]; [TLit "A"%char; TAny; TLit "G"%char];
        [TLit "A"%char; TLit "C"%char; TAny]]) by reflexivity.
  split; [exact H|]. split; [cbn; in_list|].
  apply (make_reg_ex_mm_shape _ _ _ _ H); cbn; in_list.
Defined.

(** For a primer longer than the mismatch count, no pattern of
    [make_reg_ex_mm] that contains [$] can match any string at any
    position: the [$] is followed by at least one base, which can neither
    match at the end nor match the final newline. *)
Theorem end_anchored_patterns_never_match (seq : str) (mm : nat) (l : list pat)
  (p : pat) :
  make_reg_ex_mm seq mm = Ok l -> mm < length seq -> In p l -> In TEol p ->
  forall x pos, match_at p x pos = None.
Proof.
  intros H Hn Hp He x pos.
  destruct (mrm_shape _ _ _ _ _ H Hp) as (a & b & t & -> & Ha & Hb & Ht & Hl & _).
  apply (In_anchor_body TEol a b eq_refl Hb) in He.
  destruct (match_at (a ++ b) x pos) as [e|] eqn:E; [|reflexivity].
  destruct (match_at_anchors _ _ _ _ _ Ha E) as (Hbm & _ & Heol).
  rewrite match_at_body_after_eol in Hbm; [discriminate | | exact Hb | now apply Heol].
  intros ->; cbn in Hl; lia.
Qed.

Lemma end_anchored_patterns_never_match_witness :
  make_reg_ex_mm (S_ "ACG") 1 =
    Ok [map TLit (S_ "ACG"); TBol :: map TLit (S_ "CG"); TEol :: map TLit (S_ "AC");
        [TAny; TLit "C"%char; TLit "G"%char]; [TLit "A"%char; TAny; TLit "G"%char];
        [TLit "A"%char; TLit "C"%char; TAny]] /\
  match_at (TEol :: map TLit (S_ "AC")) (S_ "GGAC") 2 = None.
Proof.
  assert (H : make_reg_ex_mm (S_ "ACG") 1 =
    Ok [map TLit (S_ "ACG"); TBol :: map TLit (S_ "CG"); TEol :: map TLit (S_ "AC");
        [TAny; TLit "C"%char; TLit "G"%char]; [TLit "A"%char; TAny; TLit "G"%char];
        [TLit "A"%char; TLit "C"%char; TAny]]) by reflexivity.
  split; [exact H|].
  apply (end_anchored_patterns_never_match _ _ _ (TEol :: map TLit (S_ "AC")) H);
    cbn; [lia | in_list | in_list].
Defined.

(** A pattern of [make_reg_ex_mm] that contains [^] can only match at the
    start of the string. *)
Theorem start_anchored_patterns_match_at_start (seq : str) (mm : nat)
  (l : list pat) (p : pat) (x : str) (pos e : nat) :
  make_reg_ex_mm seq mm = Ok l -> In p l -> In TBol p ->
  match_at p x pos = Some e -> pos = 0.
Proof.
  intros H Hp Hb E.
  destruct (mrm_shape _ _ _ _ _ H Hp) as (a & b & t & -> & Ha & Hbody & _).
  apply (In_anchor_body TBol a b eq_refl Hbody) in Hb.
  now apply (match_at_anchors _ _ _ _ _ Ha E).
Qed.

Lemma start_anchored_patterns_match_at_start_witness :
  make_reg_ex_mm (S_ "ACG") 1 =
    Ok [map TLit (S_ "ACG"); TBol :: map TLit (S_ "CG"); TEol :: map TLit (S_ "AC");
        [TAny; TLit "C"%char; TLit "G"%char]; [TLit "A"%char; TAny; TLit "G"%char];
        [TLit "A"%char; TLit "C"%char; TAny]] /\
  match_at (TBol :: map TLit (S_ "CG")) (S_ "CGTT") 0 = Some 2 /\ 0 = 0.
Proof.
  assert (H : make_reg_ex_mm (S_ "ACG") 1 =
    Ok [map TLit (S_ "ACG"); TBol :: map TLit (S_ "CG"); TEol :: map TLit (S_ "AC");
        [TAny; TLit "C"%char; TLit "G"%char]; [TLit "A"%char; TAny; TLit "G"%char];
        [TLit "A"%char; TLit "C"%char; TAny]]) by reflexivity.
  split; [exact H|]. split; [reflexivity|].
  apply (start_anchored_patterns_match_at_start _ _ _ (TBol :: map TLit (S_ "CG"))
           (S_ "CGTT") 0 2 H);
    [cbn; in_list | cbn; in_list | reflexivity].
Defined.

(** Raising the mismatch count only adds patterns: for [m <= m' <= 2],
    every pattern yielded for [m] is also yielded for [m']. *)
Theorem make_reg_ex_mm_monotone (seq : str) (m m' : nat) (l l' : list pat) :
  m <= m' -> make_reg_ex_mm seq m = Ok l -> make_reg_ex_mm seq m' = Ok l' -> incl l l'.
Proof.
  intros Hm H H'.
  assert (m' <= 2) by (unfold make_reg_ex_mm in H'; rewrite mrm_S in H';
                       destruct (2 <? m') eqn:E; [discriminate | now apply Nat.ltb_ge]).
  eapply (mrm_le m m' seq m m'); eauto; lia.
Qed.

Lemma make_reg_ex_mm_monotone_witness :
  exists l l', make_reg_ex_mm (S_ "ACG") 1 = Ok l /\
    make_reg_ex_mm (S_ "ACG") 2 = Ok l' /\ incl l l'.
Proof.
  do 2 eexists; split; [reflexivity|]; split; [reflexivity|].
  apply (make_reg_ex_mm_monotone (S_ "ACG") 1 2); [lia | reflexivity | reflexivity].
Defined.

(** ** The combined alternation *)

Lemma insert_desc_perm p l : Permutation (insert_desc p l) (p :: l).
Proof.
  induction l as [|q l IH]; cbn [insert_desc]; [reflexivity|].
  destruct (pat_len q <? pat_len p); [reflexivity|].
  rewrite IH; apply perm_swap.
Qed.

Lemma sort_by_len_perm l : Permutation (sort_by_len l) l.
Proof.
  unfold sort_by_len.
  enough (forall acc, Permutation (fold_left (fun acc p => insert_desc p acc) l acc)
                                  (l ++ acc)) by (rewrite H, app_nil_r; reflexivity).
  induction l as [|p l IH]; intros acc; cbn; [reflexivity|].
  rewrite IH, insert_desc_perm; symmetry; apply Permutation_middle.
Qed.

Definition longer_first (p q : pat) : Prop := pat_len q <= pat_len p.

Lemma insert_desc_hd q p l :
  HdRel longer_first q l -> longer_first q p -> HdRel longer_first q (insert_desc p l).
Proof.
  destruct l as [|q' l]; cbn [insert_desc]; intros Hh Hq; [now constructor|].
  destruct (pat_len q' <? pat_len p); constructor; auto.
  now inversion Hh.
Qed.

Lemma insert_desc_sorted p l :
  Sorted longer_first l -> Sorted longer_first (insert_desc p l).
Proof.
  induction l as [|q l IH]; cbn [insert_desc]; intros H; [repeat constructor|].
  destruct (pat_len q <? pat_len p) eqn:E.
  - apply Nat.ltb_lt in E; constructor; auto.
    constructor; unfold longer_first; lia.
  - apply Nat.ltb_ge in E; apply Sorted_inv in H as [Hs Hh].
    constructor; auto.
    apply insert_desc_hd; auto.
Qed.

Lemma sort_by_len_sorted l : Sorted longer_first (sort_by_len l).
Proof.
  unfold sort_by_len.
  enough (forall acc, Sorted longer_first acc ->
            Sorted longer_first (fold_left (fun acc p => insert_desc p acc) l acc))
    by (apply H; constructor).
  induction l as [|p l IH]; intros acc Hacc; cbn; auto.
  apply IH, insert_desc_sorted, Hacc.
Qed.

Lemma concat_Forall2_In {A C} (f : A -> res (list C)) (xs : list A) pats a :
  Forall2 (fun x y => f x = Ok y) xs pats ->
  In a (concat pats) <-> exists x l, In x xs /\ f x = Ok l /\ In a l.
Proof.
  intros E; rewrite in_concat; split.
  - intros (l & Hl & Ha).
    destruct (Forall2_In_r _ _ _ _ E Hl) as (r & Hr & Hm); eauto.
  - intros (r & l & Hr & Hm & Ha).
    destruct (Forall2_In_l _ _ _ _ E Hr) as (l' & Hl' & Hm').
    rewrite Hm in Hm'; inversion Hm'; subst; eauto.
Qed.

Lemma load_In rcf records mm rc k alts a :
  load_primers_as_re rcf records mm rc = Ok (k, alts) ->
  In a alts <-> exists r l, In r records /\
       make_reg_ex_mm (if rc then rcf r else r) mm = Ok l /\ In a l.
Proof.
  unfold load_primers_as_re; intros H.
  match type of H with context [mapM ?f records] =>
    destruct (mapM f records) as [pats|] eqn:E; [|discriminate];
    apply mapM_Forall2 in E end.
  cbn [bind] in H; inversion H; subst; clear H.
  rewrite In_sort_by_len, nodup_In; now apply concat_Forall2_In with
    (f := fun r => make_reg_ex_mm (if rc then rcf r else r) mm).
Qed.

(** [load_primers_as_re] counts the primer records and compiles every
    pattern of every (oriented) primer into the alternation exactly once,
    longest pattern string first. *)
Theorem load_primers_as_re_alternatives (rcf : str -> str) (records : list str)
  (mm : nat) (rc : bool) (k : nat) (alts : list pat) :
  load_primers_as_re rcf records mm rc = Ok (k, alts) ->
  k = length records /\ NoDup alts /\ Sorted longer_first alts /\
  (forall a, In a alts <-> exists r l, In r records /\
       make_reg_ex_mm (if rc then rcf r else r) mm = Ok l /\ In a l).
Proof.
  unfold load_primers_as_re; intros H.
  match type of H with context [mapM ?f records] =>
    destruct (mapM f records) as [pats|] eqn:E; [|discriminate];
    apply mapM_Forall2 in E end.
  cbn [bind] in H; inversion H; subst; clear H.
  split; [reflexivity|]. split.
  { eapply Permutation_NoDup; [symmetry; apply sort_by_len_perm | apply NoDup_nodup]. }
  split; [apply sort_by_len_sorted|].
  intros a; rewrite In_sort_by_len, nodup_In; now apply concat_Forall2_In.
Qed.

Lemma load_primers_as_re_alternatives_witness :
  exists alts, load_primers_as_re (fun x => x) [S_ "ACG"; S_ "TT"] 1 false = Ok (2, alts) /\
    2 = length [S_ "ACG"; S_ "TT"] /\ NoDup alts /\ Sorted longer_first alts.
Proof.
  eexists; split; [reflexivity|].
  destruct (load_primers_as_re_alternatives (fun x => x) [S_ "ACG"; S_ "TT"] 1 false 2
              _ eq_refl) as (Hk & Hn & Hs & _).
  auto.
Defined.

(** ** What the combined alternation finds *)

Lemma first_alt_exists alts x pos a e :
  In a alts -> match_at a x pos = Some e -> exists e', first_alt alts x pos = Some e'.
Proof.
  induction alts as [|a' alts IH]; intros Ha He; [destruct Ha|]; cbn.
  destruct (match_at a' x pos) eqn:E; [eauto|].
  destruct Ha as [<-|Ha]; [congruence | eauto].
Qed.

Lemma search_from_le alts x a pos e : In a alts -> match_at a x pos = Some e ->
  forall fuel start, start <= pos < start + fuel ->
  exists s e', search_from alts x start fuel = Some (s, e') /\ s <= pos.
Proof.
  intros Ha He fuel; induction fuel as [|fuel IH]; intros start Hs; [lia|]; cbn.
  destruct (first_alt alts x start) as [e'|] eqn:E; [exists start, e'; split; auto; lia|].
  destruct (Nat.eq_dec start pos) as [->|Hne].
  - destruct (first_alt_exists _ _ _ _ _ Ha He) as [e' He']; congruence.
  - apply IH; lia.
Qed.

Lemma search_le alts x a pos e : In a alts -> match_at a x pos = Some e -> pos <= length x ->
  exists s e', search alts x = Some (s, e') /\ s <= pos.
Proof. intros Ha He Hp; eapply search_from_le; eauto; lia. Qed.


Lemma load_Ok rcf records mm rc k alts r :
  load_primers_as_re rcf records mm rc = Ok (k, alts) -> In r records ->
  exists l, make_reg_ex_mm (if rc then rcf r else r) mm = Ok l.
Proof.
  unfold load_primers_as_re; intros H Hr.
  match type of H with context [mapM ?f records] =>
    destruct (mapM f records) as [pats|] eqn:E; [|discriminate];
    apply mapM_Forall2 in E end.
  destruct (Forall2_In_l _ _ _ _ E Hr) as (l & _ & Hl); eauto.
Qed.

(** A primer no longer than the mismatch count (an empty primer record
    included) makes every string match at position 0: its patterns include
    the empty pattern or [^] alone. *)
Theorem short_primer_matches_everything (rcf : str -> str) (records : list str)
  (mm : nat) (rc : bool) (k : nat) (alts : list pat) (r : str) :
  load_primers_as_re rcf records mm rc = Ok (k, alts) -> In r records ->
  length (if rc then rcf r else r) <= mm ->
  forall x, exists e, search alts x = Some (0, e).
Proof.
  intros H Hr Hn x.
  destruct (load_Ok _ _ _ _ _ _ _ H Hr) as [l Hl].
  set (q := if rc then rcf r else r) in *.
  assert (Hmm : mm <= 2) by (unfold make_reg_ex_mm in Hl; rewrite mrm_S in Hl;
                             destruct (2 <? mm) eqn:E; [discriminate | now apply Nat.ltb_ge]).
  assert (Hin : In [] l \/ In [TBol] l).
  { unfold make_reg_ex_mm in Hl.
    destruct (length q) as [|n] eqn:Eq.
    - left; apply (mrm_In _ _ _ _ [] Hl); left.
      destruct q; [reflexivity | discriminate].
    - right; apply (mrm_In _ _ _ _ [TBol] Hl); right; left.
      assert (Hn' : S n <= mm) by (rewrite <- Eq; exact Hn).
      assert (Hs : skipn (S n) (upper q) = []) by
        (apply skipn_all2; rewrite length_upper; lia).
      destruct (mrm_ok mm (skipn (S n) (upper q)) (mm - S n)) as [A HA];
        [lia | lia | rewrite Hs; constructor|].
      exists (S n), A, []; split; [lia|]; split; [exact HA|]; split; [|reflexivity].
      rewrite Hs in HA; destruct mm as [|mm']; [lia|].
      apply (mrm_In _ _ _ _ [] HA); left; reflexivity. }
  assert (Hm : exists a, In a alts /\ match_at a x 0 = Some 0).
  { destruct Hin as [Hin|Hin]; [exists []|exists [TBol]]; split; try reflexivity;
      apply (load_In _ _ _ _ _ _ _ H); eauto. }
  destruct Hm as (a & Ha & Hm).
  destruct (search_le _ _ _ _ _ Ha Hm ltac:(lia)) as (s & e & Hs & Hle).
  exists e; replace 0 with s by lia; exact Hs.
Qed.

Lemma short_primer_matches_everything_witness :
  exists alts, load_primers_as_re (fun x => x) [S_ "ACGT"; S_ "A"] 1 false = Ok (2, alts) /\
    exists e, search alts (S_ "TTTT") = Some (0, e).
Proof.
  eexists; split; [reflexivity|].
  apply (short_primer_matches_everything (fun x => x) [S_ "ACGT"; S_ "A"] 1 false 2 _
           (S_ "A") eq_refl); [cbn; in_list | cbn; lia].
Defined.

(** A string that contains an (oriented, upper-cased) primer of the file at
    position [length u] is reported as a match, starting at or before that
    position. *)
Theorem primer_occurrence_found (rcf : str -> str) (records : list str) (mm : nat)
  (rc : bool) (k : nat) (alts : list pat) (r u v : str) :
  load_primers_as_re rcf records mm rc = Ok (k, alts) -> In r records ->
  exists s e, search alts (u ++ upper (if rc then rcf r else r) ++ v) = Some (s, e) /\
    s <= length u.
Proof.
  intros H Hr.
  destruct (load_Ok _ _ _ _ _ _ _ H Hr) as [l Hl].
  set (q := if rc then rcf r else r) in *.
  pose proof Hl as Hl'; unfold make_reg_ex_mm in Hl'.
  destruct (mrm_head _ _ _ _ Hl') as [r0 Hr0].
  assert (Ha : In r0 alts).
  { apply (load_In _ _ _ _ _ _ _ H); exists r, l; split; [exact Hr|]; split; [exact Hl|].
    apply (mrm_In _ _ _ _ r0 Hl'); now left. }
  assert (Hm : match_at r0 (u ++ upper q ++ v) (length u) =
               Some (length u + length (upper q))).
  { apply make_reg_ex_match; [exact Hr0|].
    rewrite skipn_app, Nat.sub_diag, skipn_all; cbn [app skipn].
    rewrite firstn_app, Nat.sub_diag, firstn_all; cbn; apply app_nil_r. }
  destruct (search_le _ _ _ _ _ Ha Hm) as (s & e & Hs & Hle);
    [rewrite !length_app; lia|].
  eauto.
Qed.

Lemma primer_occurrence_found_witness :
  exists alts s e, load_primers_as_re (fun x => x) [S_ "ACNT"] 0 false = Ok (1, alts) /\
    search alts (S_ "GG" ++ upper (S_ "ACNT") ++ S_ "CC") = Some (s, e) /\
    s <= length (S_ "GG").
Proof.
  eexists.
  assert (H : load_primers_as_re (fun x => x) [S_ "ACNT"] 0 false =
              Ok (1, [[TLit "A"%char; TLit "C"%char; TAny; TLit "T"%char]]))
    by reflexivity.
  destruct (primer_occurrence_found (fun x => x) [S_ "ACNT"] 0 false 1 _ (S_ "ACNT")
              (S_ "GG") (S_ "CC") H ltac:(cbn; in_list)) as (s & e & Hs & Hle).
  exists s, e; split; [exact H|]; auto.
Defined.

(** ** Command line *)

Lemma str_eqb_eq a b : str_eqb a b = true <-> a = b.
Proof. unfold str_eqb; destruct (list_eq_dec ascii_dec a b); split; congruence. Qed.

Lemma str_in_In x l : str_in x l = true <-> In x l.
Proof.
  unfold str_in; rewrite existsb_exists; split.
  - intros (y & Hy & E); apply str_eqb_eq in E; now subst.
  - intros H; exists x; split; auto; now apply str_eqb_eq.
Qed.

(** A successful parse has 8 arguments after the script name, a mismatch
    count of at most 2, three distinct file names, and reverse-complement
    only together with the reverse orientation. *)
Theorem parse_args_config (py_int : str -> option Z) (argv : list str) (cfg : config) :
  parse_args py_int argv = Ok (PConfig cfg) ->
  length argv = 9 /\ cfg_mm cfg <= 2 /\
  cfg_in_file cfg <> cfg_primer_fasta cfg /\ cfg_in_file cfg <> cfg_out_file cfg /\
  cfg_primer_fasta cfg <> cfg_out_file cfg /\
  (cfg_rc cfg = true -> cfg_forward cfg = false).
Proof.
  unfold parse_args; intros H.
  destruct (str_in (S_ "-v") argv || str_in (S_ "--version") argv); [discriminate|].
  destruct argv as [|prog argv]; [discriminate|]; cbn [tl] in H.
  do 8 (destruct argv as [|? argv]; [discriminate|]).
  destruct argv; [|discriminate].
  repeat match type of H with
         | context [if str_eqb ?a ?b then _ else _] =>
             let E := fresh "E" in
             destruct (str_eqb a b) eqn:E; [discriminate|]
         end.
  destruct (py_int _) as [z|]; [|discriminate].
  destruct (check_mm z) as [m|] eqn:Ec; [|discriminate]; cbn [bind] in H.
  destruct (py_int _) as [ml|]; [|discriminate].
  destruct (ml <? 0)%Z; [discriminate|].
  destruct (parse_keep_negatives _) as [keep|]; [|discriminate]; cbn [bind] in H.
  destruct (parse_primer_type _) as [[fw rc]|] eqn:Ep; [|discriminate]; cbn [bind] in H.
  inversion H; subst; clear H; cbn.
  assert (Hm : m <= 2).
  { unfold check_mm in Ec; destruct (z <? 0)%Z; [discriminate|].
    destruct ((z =? 0)%Z || (z =? 1)%Z || (z =? 2)%Z) eqn:Ez; [|discriminate].
    inversion Ec; subst.
    apply orb_true_iff in Ez as [Ez|Ez]; [apply orb_true_iff in Ez as [Ez|Ez]|];
      apply Z.eqb_eq in Ez; subst; cbn; lia. }
  split; [reflexivity|]; split; [exact Hm|].
  repeat split; try (intros Heq; apply str_eqb_eq in Heq; congruence).
  intros ->; unfold parse_primer_type in Ep.
  repeat match type of Ep with context [if ?b then _ else _] => destruct b end;
    congruence.
Qed.

Lemma parse_args_config_witness :
  parse_args (fun s => if str_eqb s (S_ "1") then Some 1%Z else
                       if str_eqb s (S_ "20") then Some 20%Z else None)
    [S_ "clip"; S_ "in.fq"; S_ "fastq"; S_ "p.fa"; S_ "Reverse-Complement";
     S_ "1"; S_ "20"; S_ "TRUE"; S_ "out.fq"] =
  Ok (PConfig (mk_config (S_ "in.fq") (S_ "fastq") (S_ "p.fa") false true 1 20 true
                 (S_ "out.fq"))) /\
  cfg_mm (mk_config (S_ "in.fq") (S_ "fastq") (S_ "p.fa") false true 1 20 true
            (S_ "out.fq")) <= 2.
Proof.
  assert (H : parse_args (fun s => if str_eqb s (S_ "1") then Some 1%Z else
                       if str_eqb s (S_ "20") then Some 20%Z else None)
    [S_ "clip"; S_ "in.fq"; S_ "fastq"; S_ "p.fa"; S_ "Reverse-Complement";
     S_ "1"; S_ "20"; S_ "TRUE"; S_ "out.fq"] =
    Ok (PConfig (mk_config (S_ "in.fq") (S_ "fastq") (S_ "p.fa") false true 1 20 true
                 (S_ "out.fq")))) by (vm_compute; reflexivity).
  split; [exact H|].
  apply (parse_args_config _ _ _ H).
Defined.

(** The order of the checks: [-v] or [--version] anywhere on the command
    line wins over everything; otherwise, with 8 arguments and distinct
    file names, a mismatch count above 2 raises [NotImplementedError]
    whatever the minimum length, keep-unmatched and primer type arguments
    are (they are checked later), and a negative one exits. *)
Theorem parse_args_check_order (py_int : str -> option Z) :
  (forall argv, In (S_ "-v") argv \/ In (S_ "--version") argv ->
     parse_args py_int argv = Ok PVersion) /\
  (forall prog in_file seq_format primer_fasta primer_type mm min_len keep out_file z,
     let argv := [prog; in_file; seq_format; primer_fasta; primer_type; mm; min_len;
                  keep; out_file] in
     ~ In (S_ "-v") argv -> ~ In (S_ "--version") argv ->
     in_file <> primer_fasta -> in_file <> out_file -> primer_fasta <> out_file ->
     py_int mm = Some z ->
     ((2 < z)%Z -> parse_args py_int argv = Err NotImplementedError) /\
     ((z < 0)%Z -> parse_args py_int argv = Err SysExit)).
Proof.
  split.
  - intros argv Hv; unfold parse_args.
    destruct Hv as [Hv|Hv]; apply str_in_In in Hv; rewrite Hv; [reflexivity|].
    now rewrite orb_true_r.
  - intros prog in_file seq_format primer_fasta primer_type mm min_len keep out_file z
      argv Hv Hver H1 H2 H3 Hz.
    assert (Hnv : str_in (S_ "-v") argv || str_in (S_ "--version") argv = false).
    { destruct (str_in (S_ "-v") argv) eqn:E1; [apply str_in_In in E1; tauto|].
      destruct (str_in (S_ "--version") argv) eqn:E2; [apply str_in_In in E2; tauto|].
      reflexivity. }
    assert (Hf : forall a b, a <> b -> str_eqb a b = false).
    { intros a b Hab; destruct (str_eqb a b) eqn:E; auto; apply str_eqb_eq in E; congruence. }
    unfold parse_args; rewrite Hnv; subst argv; cbn [tl].
    rewrite (Hf _ _ H1), (Hf _ _ H2), (Hf _ _ H3), Hz.
    split; intros Hlt.
    + now rewrite check_mm_large.
    + unfold check_mm; replace (z <? 0)%Z with true by (symmetry; now apply Z.ltb_lt).
      reflexivity.
Qed.

Lemma parse_args_check_order_witness :
  parse_args (fun s => if str_eqb s (S_ "3") then Some 3%Z else None)
    [S_ "clip"; S_ "in.fq"; S_ "fastq"; S_ "p.fa"; S_ "sideways";
     S_ "3"; S_ "oops"; S_ "maybe"; S_ "out.fq"] = Err NotImplementedError.
Proof.
  apply (proj2 (parse_args_check_order (fun s => if str_eqb s (S_ "3") then Some 3%Z else None))
           (S_ "clip") (S_ "in.fq") (S_ "fastq") (S_ "p.fa") (S_ "sideways")
           (S_ "3") (S_ "oops") (S_ "maybe") (S_ "out.fq") 3%Z);
    try (cbn; intros H; repeat (destruct H as [H|H]; [discriminate|]); exact H);
    try discriminate; try reflexivity; lia.
Defined.

(** An empty primer file loads with count 0 and compiles to the empty
    regex, which every read matches at [(0, 0)]: no read is ever treated
    as unmatched. *)
Theorem empty_primer_file_matches_every_read (rcf : str -> str) (mm : Z) (rc : bool)
  (x : str) :
  (0 <= mm <= 2)%Z ->
  exists alts, build_matcher rcf [] mm rc = Ok (0, alts) /\
    search (re_compile alts) x = Some (0, 0).
Proof.
  intros H; destruct (check_mm_small _ H) as [Hc _].
  exists []; split.
  - unfold build_matcher; rewrite Hc; reflexivity.
  - reflexivity.
Qed.

Lemma empty_primer_file_matches_every_read_witness :
  exists alts, build_matcher (fun x => x) [] 1 false = Ok (0, alts) /\
    search (re_compile alts) (S_ "ACGT") = Some (0, 0).
Proof.
  apply (empty_primer_file_matches_every_read (fun x => x) 1 false (S_ "ACGT")); lia.
Defined.
